(** * ScopedLocalRef: an owning guard around a tuple of resources

    A shallow embedding of [src/scopedlocalref.hpp] (namespace
    [scopedlocalref]) and the properties of its lifecycle: cleanup on
    destruction, explicit release, move transfer, access after release,
    validity and stealing. *)

From Stdlib Require Import ZArith NArith String Bool Lia.
From stdpp Require Import base option list.

Module scopedlocalref.

(** ** Resource types

    The class template is generic in [Resources...].  Three kinds of C++
    type behave differently under the operations the class applies to a
    resource (value-initialisation [{}], [std::move], and the
    [ValidityCheck] trait):
    - [TInt]: a scalar that is not a pointer (an [int], a file descriptor,
      an integral handle);
    - [TPtr]: a raw pointer [T*];
    - [TShared]: a class type whose move constructor empties its source,
      here [std::shared_ptr<T>]. *)
Inductive rtype : Type := TInt | TPtr | TShared.

(** A raw pointer is its address; address 0 is [nullptr]. *)
Record pointer : Type := Ptr { address : N }.
Definition nullptr : pointer := Ptr 0.

(** A [std::shared_ptr] is the raw pointer it manages ([get()]). *)
Record shared_ptr : Type := Shared { managed : pointer }.

Definition denote (t : rtype) : Type :=
  match t with
  | TInt => Z
  | TPtr => pointer
  | TShared => shared_ptr
  end.

(** Value-initialisation [T{}]. *)
Definition value_init (t : rtype) : denote t :=
  match t with
  | TInt => 0%Z
  | TPtr => nullptr
  | TShared => Shared nullptr
  end.

(** What [std::move] leaves behind in an object a new one was
    move-constructed (or move-assigned) from: scalars and raw pointers are
    copied, a [shared_ptr] is left empty. *)
Definition moved_from (t : rtype) : denote t -> denote t :=
  match t with
  | TInt => fun x => x
  | TPtr => fun p => p
  | TShared => fun _ => Shared nullptr
  end.

(** ** The [ValidityCheck] trait

    The primary template accepts every value; the specialisations for
    [T*] and [T* const&] compare with [nullptr]. *)
Class ValidityCheck (T : Type) := check : T -> bool.

#[export] Instance ValidityCheck_primary (T : Type) : ValidityCheck T | 100 :=
  fun _ => true.

Definition pointer_neq (p q : pointer) : bool :=
  negb (N.eqb (address p) (address q)).

#[export] Instance ValidityCheck_pointer : ValidityCheck pointer | 0 :=
  fun p => pointer_neq p nullptr.

(** The instance [operator bool] selects for each resource type:
    [decltype(args)] is [const R&], which matches [T* const&] exactly when
    [R] is a raw pointer type. *)
Definition ValidityCheck_of (t : rtype) : ValidityCheck (denote t) :=
  match t with
  | TInt => _
  | TPtr => _
  | TShared => _
  end.

(** ** [std::tuple<Resources...>] *)
Fixpoint tuple (ts : list rtype) : Type :=
  match ts with
  | [] => unit
  | t :: ts' => (denote t * tuple ts')%type
  end.

(** [std::tuple_element_t<I, std::tuple<Resources...>>].  An index past the
    end does not compile in C++; it is given the unit type here. *)
Fixpoint tuple_element (I : nat) (ts : list rtype) {struct ts} : Type :=
  match ts with
  | [] => unit
  | t :: ts' =>
      match I with
      | O => denote t
      | S I' => tuple_element I' ts'
      end
  end.

(** [std::get<I>(t)] *)
Fixpoint std_get (I : nat) {ts : list rtype} {struct ts}
  : tuple ts -> tuple_element I ts :=
  match ts return tuple ts -> tuple_element I ts with
  | [] => fun _ => tt
  | t :: ts' =>
      match I return tuple (t :: ts') -> tuple_element I (t :: ts') with
      | O => fun p => fst p
      | S I' => fun p => std_get I' (snd p)
      end
  end.

(** [std::get<I>(t) = v] *)
Fixpoint std_get_assign (I : nat) {ts : list rtype} {struct ts}
  : tuple_element I ts -> tuple ts -> tuple ts :=
  match ts return tuple_element I ts -> tuple ts -> tuple ts with
  | [] => fun _ p => p
  | t :: ts' =>
      match I return tuple_element I (t :: ts') -> tuple (t :: ts') -> tuple (t :: ts') with
      | O => fun v p => (v, snd p)
      | S I' => fun v p => (fst p, std_get_assign I' v (snd p))
      end
  end.

(** [std::tuple<Resources...>{}]: every element value-initialised. *)
Fixpoint tuple_value_init (ts : list rtype) : tuple ts :=
  match ts with
  | [] => tt
  | t :: ts' => (value_init t, tuple_value_init ts')
  end.

(** The state of a tuple after [std::move] was applied to it and the
    result used to construct or assign another tuple: element-wise. *)
Fixpoint tuple_moved_from {ts : list rtype} : tuple ts -> tuple ts :=
  match ts return tuple ts -> tuple ts with
  | [] => fun p => p
  | t :: ts' => fun p => (moved_from t (fst p), tuple_moved_from (snd p))
  end.

(** The fold [(ValidityCheck<decltype(args)>::check(args) && ...)] under
    [std::apply]; the empty fold is [true]. *)
Fixpoint all_valid {ts : list rtype} : tuple ts -> bool :=
  match ts return tuple ts -> bool with
  | [] => fun _ => true
  | t :: ts' => fun p => @check _ (ValidityCheck_of t) (fst p) && all_valid (snd p)
  end.

(** The instance for the resource at position [I] of the pack. *)
Fixpoint ValidityCheck_at (I : nat) (ts : list rtype) {struct ts}
  : ValidityCheck (tuple_element I ts) :=
  match ts return ValidityCheck (tuple_element I ts) with
  | [] => ValidityCheck_primary unit
  | t :: ts' =>
      match I return ValidityCheck (tuple_element I (t :: ts')) with
      | O => ValidityCheck_of t
      | S I' => ValidityCheck_at I' ts'
      end
  end.

(** A type [std::move] copies. *)
Definition trivially_movable (t : rtype) : bool :=
  match t with
  | TInt | TPtr => true
  | TShared => false
  end.

(** ** Exceptions and results *)

(** [std::logic_error] is what the class itself throws; a deleter can throw
    anything. *)
Inductive exception : Type :=
| logic_error (what : string)
| other_exception (what : string).

Inductive result (A : Type) : Type :=
| Return (a : A)
| Throw (e : exception).
Arguments Return {A} a.
Arguments Throw {A} e.

Section Guard.

(** The parameter pack [Resources...].  (The class only instantiates with
    at least one resource type, since its member declarations name
    [std::tuple_element_t<0, ...>].) *)
Variable Rs : list rtype.

(** A deleter is a callable on the resources; calling it returns or
    throws.  What it does to the outside world is recorded as an [Invoke]
    event. *)
Definition Deleter : Type := tuple Rs -> result unit.

Record ScopedLocalRef : Type := mkScopedLocalRef {
  m_resources : tuple Rs;
  m_deleter : Deleter;
  m_released : bool
}.

(** What a member function does outside the object, in order: calls of the
    deleter and lines written to [std::cerr]. *)
Inductive Event : Type :=
| Invoke (d : Deleter) (args : tuple Rs)
| Cerr (line : string).

(** ** Member functions run on [*this] and the event log; they return a
    value or throw, and the state they leave behind is kept in both
    cases. *)
Record Frame : Type := mkFrame {
  this : ScopedLocalRef;
  events : list Event
}.

Definition M (A : Type) : Type := Frame -> result A * Frame.

#[export] Instance M_ret : MRet M := fun A a f => (Return a, f).

#[export] Instance M_bind : MBind M := fun A B k m f =>
  match m f with
  | (Return a, f') => k a f'
  | (Throw e, f') => (Throw e, f')
  end.

#[export] Instance M_throw : MThrow exception M := fun A e f => (Throw e, f).

(** [try { body } catch (...) { handler }] *)
Definition try_catch_all {A : Type} (body handler : M A) : M A := fun f =>
  match body f with
  | (Return a, f') => (Return a, f')
  | (Throw _, f') => handler f'
  end.

(** Reading a data member of [*this]. *)
Definition read {A : Type} (field : ScopedLocalRef -> A) : M A :=
  fun f => (Return (field (this f)), f).

(** [m_resources = rs] *)
Definition assign_resources (rs : tuple Rs) : M unit := fun f =>
  (Return tt,
   mkFrame (mkScopedLocalRef rs (m_deleter (this f)) (m_released (this f)))
           (events f)).

(** [m_deleter = d] *)
Definition assign_deleter (d : Deleter) : M unit := fun f =>
  (Return tt,
   mkFrame (mkScopedLocalRef (m_resources (this f)) d (m_released (this f)))
           (events f)).

(** [m_released = b] *)
Definition assign_released (b : bool) : M unit := fun f =>
  (Return tt,
   mkFrame (mkScopedLocalRef (m_resources (this f)) (m_deleter (this f)) b)
           (events f)).

Definition emit (e : Event) : M unit := fun f =>
  (Return tt, mkFrame (this f) (events f ++ [e])).

(** [std::apply(m_deleter, m_resources)] *)
Definition std_apply_deleter : M unit :=
  d ← read m_deleter;
  rs ← read m_resources;
  emit (Invoke d rs);;
  match d rs with
  | Return _ => mret tt
  | Throw e => mthrow e
  end.

(** [std::cerr << line << std::endl] *)
Definition cerr_endl (line : string) : M unit := emit (Cerr line).

(** [void cleanup() noexcept] *)
Definition cleanup : M unit :=
  released ← read m_released;
  if negb released then
    try_catch_all
      std_apply_deleter
      (cerr_endl "Cleanup error - potential leak");;
    assign_resources (tuple_value_init Rs);;
    assign_released true
  else mret tt.

(** [explicit ScopedLocalRef(D&& deleter, Args&&... args)] *)
Definition construct (deleter : Deleter) (args : tuple Rs) : ScopedLocalRef :=
  mkScopedLocalRef args deleter false.

(** [make_scoped_ref(deleter, args...)] *)
Definition make_scoped_ref (deleter : Deleter) (args : tuple Rs) : ScopedLocalRef :=
  construct deleter args.

(** [~ScopedLocalRef() { cleanup(); }] *)
Definition destructor : M unit := cleanup.

(** [ScopedLocalRef(ScopedLocalRef&& other) noexcept]: the new object and
    the state [other] is left in.  The members are move-constructed from
    [other]'s; a deleter is a function pointer or a closure, which a move
    copies. *)
Definition move_construct (other : ScopedLocalRef)
  : ScopedLocalRef * ScopedLocalRef :=
  (mkScopedLocalRef (m_resources other) (m_deleter other) (m_released other),
   mkScopedLocalRef (tuple_moved_from (m_resources other)) (m_deleter other) true).

(** The body of [operator=(ScopedLocalRef&& other)] under
    [if (this != &other)]: runs on [*this], with [other] a different
    object, whose final state it returns. *)
Definition move_assign_from (other : ScopedLocalRef) : M ScopedLocalRef :=
  cleanup;;
  assign_resources (m_resources other);;
  assign_deleter (m_deleter other);;
  assign_released (m_released other);;
  mret (mkScopedLocalRef
          (tuple_moved_from (m_resources other)) (m_deleter other) true).

(** [decltype(auto) get<I>() const] *)
Definition get (I : nat) : M (tuple_element I Rs) :=
  released ← read m_released;
  if released : bool then mthrow (logic_error "Resource released")
  else rs ← read m_resources; mret (std_get I rs).

(** [decltype(auto) get() const] *)
Definition get0 : M (tuple_element 0 Rs) :=
  released ← read m_released;
  if released : bool then mthrow (logic_error "Resource released")
  else rs ← read m_resources; mret (std_get 0 rs).

(** [try_get<I>() const]: [None] is [std::nullopt]; the reference the
    optional wraps is read at once. *)
Definition try_get (I : nat) : M (option (tuple_element I Rs)) :=
  released ← read m_released;
  if released : bool then mret None
  else rs ← read m_resources; mret (Some (std_get I rs)).

(** [try_get() const] *)
Definition try_get0 : M (option (tuple_element 0 Rs)) :=
  released ← read m_released;
  if released : bool then mret None
  else rs ← read m_resources; mret (Some (std_get 0 rs)).

(** [void set<I>(const tuple_element_t<I, ...>& new_resource)] *)
Definition set (I : nat) (new_resource : tuple_element I Rs) : M unit :=
  released ← read m_released;
  if released : bool then mthrow (logic_error "Resource released")
  else rs ← read m_resources; assign_resources (std_get_assign I new_resource rs).

(** [void set(const tuple_element_t<0, ...>& new_resource)] *)
Definition set0 (new_resource : tuple_element 0 Rs) : M unit :=
  released ← read m_released;
  if released : bool then mthrow (logic_error "Resource released")
  else rs ← read m_resources; assign_resources (std_get_assign 0 new_resource rs).

(** [int try_set<I>(const tuple_element_t<I, ...>& new_resource)] *)
Definition try_set (I : nat) (new_resource : tuple_element I Rs) : M Z :=
  released ← read m_released;
  if released : bool then mret 1%Z
  else
    rs ← read m_resources;
    assign_resources (std_get_assign I new_resource rs);;
    mret 0%Z.

(** [int try_set(const tuple_element_t<0, ...>& new_resource)] *)
Definition try_set0 (new_resource : tuple_element 0 Rs) : M Z :=
  released ← read m_released;
  if released : bool then mret 1%Z
  else
    rs ← read m_resources;
    assign_resources (std_get_assign 0 new_resource rs);;
    mret 0%Z.

(** [explicit operator bool() const] *)
Definition operator_bool : M bool :=
  released ← read m_released;
  rs ← read m_resources;
  mret (negb released && all_valid rs).

(** [void release() noexcept { cleanup(); }] *)
Definition release : M unit := cleanup.

(** [std::tuple<Resources...> steal()]: the returned tuple is
    move-constructed from [m_resources]. *)
Definition steal : M (tuple Rs) :=
  released ← read m_released;
  if released : bool then mthrow (logic_error "Already released")
  else
    assign_released true;;
    rs ← read m_resources;
    assign_resources (tuple_moved_from rs);;
    mret rs.

(** What a cleanup that calls the deleter [d] on [rs] adds to the events:
    the call, and a line on [std::cerr] when the call throws. *)
Definition cleanup_events (d : Deleter) (rs : tuple Rs) : list Event :=
  Invoke d rs ::
  match d rs with
  | Return _ => []
  | Throw _ => [Cerr "Cleanup error - potential leak"]
  end.

(** The deleter calls among the events, in order: the deleter called and
    the arguments it was given. *)
Fixpoint calls (evs : list Event) : list (Deleter * tuple Rs) :=
  match evs with
  | [] => []
  | Invoke d args :: evs' => (d, args) :: calls evs'
  | Cerr _ :: evs' => calls evs'
  end.

(** ** Objects in a program

    A program holds several guards and applies operations to them; an
    object is named by its address.  A slot of the heap is [Some g] for a
    live object and [None] once it has been destroyed; addresses are not
    reused.  The trace records every event with the object whose member
    function produced it. *)
Definition addr : Type := nat.

Record Machine : Type := mkMachine {
  heap : list (option ScopedLocalRef);
  trace : list (addr * Event)
}.

Definition initial : Machine := mkMachine [] [].

Definition object (σ : Machine) (a : addr) : option ScopedLocalRef :=
  match heap σ !! a with
  | Some (Some g) => Some g
  | _ => None
  end.

(** Calling a member function on the live object at [a]. *)
Definition call {A : Type} (a : addr) (m : M A) (σ : Machine)
  : option (result A * Machine) :=
  g ← object σ a;
  let f := m (mkFrame g []) in
  Some (fst f,
        mkMachine (<[a := Some (this (snd f))]> (heap σ))
                  (trace σ ++ map (pair a) (events (snd f)))).

(** [ScopedLocalRef g(deleter, args...)]: a new object, at the next
    address. *)
Definition new_object (g : ScopedLocalRef) (σ : Machine) : Machine :=
  mkMachine (heap σ ++ [Some g]) (trace σ).

(** [ScopedLocalRef g(std::move(other))] *)
Definition move_constructor (other : addr) (σ : Machine) : option Machine :=
  o ← object σ other;
  let go := move_construct o in
  Some (new_object (fst go)
          (mkMachine (<[other := Some (snd go)]> (heap σ)) (trace σ))).

(** [dst = std::move(other)], i.e. [operator=(ScopedLocalRef&&)] with its
    test [this != &other].  The operator is [noexcept]. *)
Definition move_assignment (dst other : addr) (σ : Machine) : option Machine :=
  _ ← object σ dst;
  o ← object σ other;
  if decide (dst ≠ other) then
    rσ ← call dst (move_assign_from o) σ;
    match fst rσ with
    | Return o' =>
        Some (mkMachine (<[other := Some o']> (heap (snd rσ))) (trace (snd rσ)))
    | Throw _ => None
    end
  else Some σ.

(** The end of the lifetime of the object at [a]: its destructor runs and
    the object is gone. *)
Definition destroy (a : addr) (σ : Machine) : option Machine :=
  rσ ← call a destructor σ;
  Some (mkMachine (<[a := None]> (heap (snd rσ))) (trace (snd rσ))).

(** The operations of a program on its guards.  An exception thrown by a
    member function is the caller's to handle; the objects stay. *)
Inductive Op : Type :=
| OpConstruct (deleter : Deleter) (args : tuple Rs)
| OpMoveConstruct (other : addr)
| OpMoveAssign (dst other : addr)
| OpGet (a : addr) (I : nat)
| OpTryGet (a : addr) (I : nat)
| OpSet (a : addr) (I : nat) (v : tuple_element I Rs)
| OpTrySet (a : addr) (I : nat) (v : tuple_element I Rs)
| OpBool (a : addr)
| OpRelease (a : addr)
| OpSteal (a : addr)
| OpDestroy (a : addr).

(** [None]: the program uses an object outside its lifetime. *)
Definition step (op : Op) (σ : Machine) : option Machine :=
  match op with
  | OpConstruct d args => Some (new_object (construct d args) σ)
  | OpMoveConstruct other => move_constructor other σ
  | OpMoveAssign dst other => move_assignment dst other σ
  | OpGet a i => snd <$> call a (get i) σ
  | OpTryGet a i => snd <$> call a (try_get i) σ
  | OpSet a i v => snd <$> call a (set i v) σ
  | OpTrySet a i v => snd <$> call a (try_set i v) σ
  | OpBool a => snd <$> call a operator_bool σ
  | OpRelease a => snd <$> call a release σ
  | OpSteal a => snd <$> call a steal σ
  | OpDestroy a => destroy a σ
  end.

Fixpoint run (ops : list Op) (σ : Machine) : option Machine :=
  match ops with
  | [] => Some σ
  | op :: ops' => σ' ← step op σ; run ops' σ'
  end.

(** The deleter calls made by the object at [a], in order. *)
Definition is_invoke (e : Event) : bool :=
  match e with
  | Invoke _ _ => true
  | Cerr _ => false
  end.

Definition invoked_by (a : addr) (e : addr * Event) : bool :=
  Nat.eqb (fst e) a && is_invoke (snd e).

Definition invocations (a : addr) (tr : list (addr * Event)) : nat :=
  length (List.filter (invoked_by a) tr).

(** An operation that moves into the object at [a] by assignment. *)
Definition assigns_into (a : addr) (op : Op) : bool :=
  match op with
  | OpMoveAssign dst _ => Nat.eqb dst a
  | _ => false
  end.

(** The objects an operation uses; they have to be live. *)
Definition operands (op : Op) : list addr :=
  match op with
  | OpConstruct _ _ => []
  | OpMoveConstruct other => [other]
  | OpMoveAssign dst other => [dst; other]
  | OpGet a _ | OpTryGet a _ | OpSet a _ _ | OpTrySet a _ _ => [a]
  | OpBool a | OpRelease a | OpSteal a | OpDestroy a => [a]
  end.

(** An operation that leaves the object at [a] as it is: it does not
    release, steal from, destroy, move from or assign into that object, and
    does not replace one of its resources. *)
Definition keeps (a : addr) (op : Op) : bool :=
  match op with
  | OpConstruct _ _ => true
  | OpMoveConstruct other => negb (Nat.eqb other a)
  | OpMoveAssign dst other => negb (Nat.eqb dst a) && negb (Nat.eqb other a)
  | OpGet _ _ | OpTryGet _ _ | OpBool _ => true
  | OpSet b _ _ | OpTrySet b _ _ => negb (Nat.eqb b a)
  | OpRelease b | OpSteal b | OpDestroy b => negb (Nat.eqb b a)
  end.

(** ** At most one cleanup per object

    Once the object at [a] has called its deleter, it exists (its address
    is allocated) and is released or destroyed. *)
Definition spent (σ : Machine) (a : addr) : Prop :=
  a < length (heap σ) /\
  forall g, object σ a = Some g -> m_released g = true.

Definition at_most_once (σ : Machine) (a : addr) : Prop :=
  invocations a (trace σ) = 0 \/
  (invocations a (trace σ) = 1 /\ spent σ a).

(** A member function that calls the deleter at most once, only on a guard
    that is not released, and leaves the guard released when it does; on a
    released guard it calls nothing and leaves it released. *)
Definition tame {A : Type} (m : M A) : Prop :=
  forall g,
    let f := snd (m (mkFrame g [])) in
    (m_released g = true -> calls (events f) = [] /\ m_released (this f) = true) /\
    (m_released g = false ->
     calls (events f) = [] \/
     (length (calls (events f)) = 1 /\ m_released (this f) = true)).

End Guard.

(** ** Deleters and programs used in the examples *)

(** A deleter that returns, and one that throws. *)
Definition quiet_deleter (Rs : list rtype) : Deleter Rs :=
  fun _ => Return tt.

Definition failing_deleter (Rs : list rtype) : Deleter Rs :=
  fun _ => Throw (other_exception "close failed").

(** [close_fn] for a file descriptor. *)
Definition close_fn : Deleter [TInt] := quiet_deleter [TInt].

(** A deleter for a pointer and a count. *)
Definition free_both : Deleter [TPtr; TInt] := quiet_deleter [TPtr; TInt].

(** [make_scoped_ref(close_fn, 5)] and [make_scoped_ref(free_both, 0x1, 3)] *)
Definition fd5 : ScopedLocalRef [TInt] :=
  make_scoped_ref [TInt] close_fn (5%Z, tt).

Definition pair3 : ScopedLocalRef [TPtr; TInt] :=
  make_scoped_ref [TPtr; TInt] free_both (Ptr 1, (3%Z, tt)).

Arguments mkScopedLocalRef {Rs} m_resources m_deleter m_released.
Arguments m_resources {Rs} s.
Arguments m_deleter {Rs} s.
Arguments m_released {Rs} s.
Arguments Invoke {Rs} d args.
Arguments Cerr {Rs} line.
Arguments mkFrame {Rs} this events.
Arguments this {Rs} f.
Arguments events {Rs} f.
Arguments try_catch_all {Rs A} body handler.
Arguments read {Rs A} field.
Arguments assign_resources {Rs} rs.
Arguments assign_deleter {Rs} d.
Arguments assign_released {Rs} b.
Arguments emit {Rs} e.
Arguments std_apply_deleter {Rs}.
Arguments cerr_endl {Rs} line.
Arguments cleanup {Rs}.
Arguments construct {Rs} deleter args.
Arguments make_scoped_ref {Rs} deleter args.
Arguments destructor {Rs}.
Arguments move_construct {Rs} other.
Arguments move_assign_from {Rs} other.
Arguments get {Rs} I.
Arguments get0 {Rs}.
Arguments try_get {Rs} I.
Arguments try_get0 {Rs}.
Arguments set {Rs} I new_resource.
Arguments set0 {Rs} new_resource.
Arguments try_set {Rs} I new_resource.
Arguments try_set0 {Rs} new_resource.
Arguments operator_bool {Rs}.
Arguments release {Rs}.
Arguments steal {Rs}.
Arguments calls {Rs} evs.
Arguments cleanup_events {Rs} d rs.
Arguments mkMachine {Rs} heap trace.
Arguments heap {Rs} m.
Arguments trace {Rs} m.
Arguments object {Rs} σ a.
Arguments call {Rs A} a m σ.
Arguments new_object {Rs} g σ.
Arguments move_constructor {Rs} other σ.
Arguments move_assignment {Rs} dst other σ.
Arguments destroy {Rs} a σ.
Arguments OpConstruct {Rs} deleter args.
Arguments OpMoveConstruct {Rs} other.
Arguments OpMoveAssign {Rs} dst other.
Arguments OpGet {Rs} a I.
Arguments OpTryGet {Rs} a I.
Arguments OpSet {Rs} a I v.
Arguments OpTrySet {Rs} a I v.
Arguments OpBool {Rs} a.
Arguments OpRelease {Rs} a.
Arguments OpSteal {Rs} a.
Arguments OpDestroy {Rs} a.
Arguments step {Rs} op σ.
Arguments run {Rs} ops σ.
Arguments is_invoke {Rs} e.
Arguments invoked_by {Rs} a e.
Arguments invocations {Rs} a tr.
Arguments assigns_into {Rs} a op.
Arguments keeps {Rs} a op.
Arguments operands {Rs} op.
Arguments spent {Rs} σ a.
Arguments at_most_once {Rs} σ a.
Arguments tame {Rs A} m.

(** ** Accounting of cleanups over a program *)

(** A resource type the pointer specialisation of [ValidityCheck] applies
    to. *)
Definition is_raw_pointer (t : rtype) : bool :=
  match t with
  | TPtr => true
  | TInt | TShared => false
  end.

Section Accounting.

Context {Rs : list rtype}.

(** What a guard still owes: one cleanup if it is not released. *)
Definition debt (g : ScopedLocalRef Rs) : nat :=
  if m_released g then 0 else 1.

(** The same for a slot of the heap; a destroyed object owes nothing. *)
Definition slot_debt (x : option (ScopedLocalRef Rs)) : nat :=
  match x with
  | Some g => debt g
  | None => 0
  end.

(** The cleanups the live objects still owe. *)
Definition pending (h : list (option (ScopedLocalRef Rs))) : nat :=
  sum_list_with slot_debt h.

(** The deleter calls of all objects. *)
Definition total_invocations (tr : list (addr * Event Rs)) : nat :=
  length (List.filter (fun e => is_invoke (snd e)) tr).

(** The lines written to [std::cerr]. *)
Definition is_cerr (e : Event Rs) : bool :=
  match e with
  | Cerr _ => true
  | Invoke _ _ => false
  end.

Definition cerr_lines (tr : list (addr * Event Rs)) : nat :=
  length (List.filter (fun e => is_cerr (snd e)) tr).

(** A deleter call that throws. *)
Definition throws (e : Event Rs) : bool :=
  match e with
  | Invoke d args =>
      match d args with
      | Return _ => false
      | Throw _ => true
      end
  | Cerr _ => false
  end.

Definition failed_invocations (tr : list (addr * Event Rs)) : nat :=
  length (List.filter (fun e => throws (snd e)) tr).

Definition is_construct (op : Op Rs) : bool :=
  match op with
  | OpConstruct _ _ => true
  | _ => false
  end.

Definition is_steal (op : Op Rs) : bool :=
  match op with
  | OpSteal _ => true
  | _ => false
  end.

(** The operations whose member function runs [cleanup]. *)
Definition runs_cleanup (op : Op Rs) : bool :=
  match op with
  | OpRelease _ | OpDestroy _ | OpMoveAssign _ _ => true
  | _ => false
  end.

Definition constructions (ops : list (Op Rs)) : nat :=
  length (List.filter is_construct ops).

(** The events of a cleanup of [g]: none if it is released. *)
Definition cleanup_of (g : ScopedLocalRef Rs) : list (Event Rs) :=
  if m_released g then []
  else cleanup_events (m_deleter g) (m_resources g).

End Accounting.

(** ** A deleter that calls back into its guard

    The deleter is caller code.  It runs inside [cleanup()], between the
    test of [m_released] and the assignment [m_released = true], and it can
    call member functions of the very guard that is cleaning up.  [Deleter]
    above gives the outcome of the call; a script gives the member
    functions the deleter calls on the guard while it runs, in order,
    before it returns or throws.  [cleanup], [step] and [run] are the case
    of deleters that make no such call. *)

Section Reentrancy.

Context {Rs : list rtype}.

Inductive Callback : Type :=
| CallRelease
| CallGet (I : nat)
| CallTryGet (I : nat)
| CallSet (I : nat) (v : tuple_element I Rs)
| CallTrySet (I : nat) (v : tuple_element I Rs)
| CallBool
| CallSteal
| Caught (c : Callback).

Definition Script : Type := list Callback.

(** One call of the deleter on the guard.  [nested_cleanup] is what
    [release()] runs at this point; [Caught c] is the call [c] inside a
    [try { } catch (...) { }] of the deleter, any other exception of a call
    leaves the deleter. *)
Fixpoint callback (nested_cleanup : M Rs unit) (c : Callback) : M Rs unit :=
  match c with
  | CallRelease => nested_cleanup
  | CallGet i => get i;; mret tt
  | CallTryGet i => try_get i;; mret tt
  | CallSet i v => set i v
  | CallTrySet i v => try_set i v;; mret tt
  | CallBool => operator_bool;; mret tt
  | CallSteal => steal;; mret tt
  | Caught c' => try_catch_all (callback nested_cleanup c') (mret tt)
  end.

Fixpoint run_script (nested_cleanup : M Rs unit) (script : Script) : M Rs unit :=
  match script with
  | [] => mret tt
  | c :: script' =>
      callback nested_cleanup c;; run_script nested_cleanup script'
  end.

(** [std::apply(m_deleter, m_resources)] for a deleter that makes the
    calls of [script] on the guard. *)
Definition std_apply_reentrant (nested_cleanup : M Rs unit) (script : Script)
  : M Rs unit :=
  d ← read m_deleter;
  rs ← read m_resources;
  emit (Invoke d rs);;
  run_script nested_cleanup script;;
  match d rs with
  | Return _ => mret tt
  | Throw e => mthrow e
  end.

(** [void cleanup() noexcept].  [scripts] are the scripts of the deleter
    for this invocation and for the invocations nested in it, outermost
    first; with none left the deleter makes no call. *)
Fixpoint cleanup_reentrant (scripts : list Script) : M Rs unit :=
  released ← read m_released;
  if negb released then
    try_catch_all
      match scripts with
      | [] => std_apply_deleter
      | script :: nested =>
          std_apply_reentrant (cleanup_reentrant nested) script
      end
      (cerr_endl "Cleanup error - potential leak");;
    assign_resources (tuple_value_init Rs);;
    assign_released true
  else mret tt.

(** [void release() noexcept { cleanup(); }] and
    [~ScopedLocalRef() { cleanup(); }] *)
Definition release_reentrant (scripts : list Script) : M Rs unit :=
  cleanup_reentrant scripts.

Definition destructor_reentrant (scripts : list Script) : M Rs unit :=
  cleanup_reentrant scripts.

(** The body of [operator=(ScopedLocalRef&& other)] under
    [if (this != &other)]. *)
Definition move_assign_from_reentrant (scripts : list Script)
    (other : ScopedLocalRef Rs) : M Rs (ScopedLocalRef Rs) :=
  cleanup_reentrant scripts;;
  assign_resources (m_resources other);;
  assign_deleter (m_deleter other);;
  assign_released (m_released other);;
  mret (mkScopedLocalRef
          (tuple_moved_from (m_resources other)) (m_deleter other) true).

Definition move_assignment_reentrant (scripts : list Script)
    (dst other : addr) (σ : Machine Rs) : option (Machine Rs) :=
  _ ← object σ dst;
  o ← object σ other;
  if decide (dst ≠ other) then
    rσ ← call dst (move_assign_from_reentrant scripts o) σ;
    match fst rσ with
    | Return o' =>
        Some (mkMachine (<[other := Some o']> (heap (snd rσ))) (trace (snd rσ)))
    | Throw _ => None
    end
  else Some σ.

Definition destroy_reentrant (scripts : list Script) (a : addr) (σ : Machine Rs)
  : option (Machine Rs) :=
  rσ ← call a (destructor_reentrant scripts) σ;
  Some (mkMachine (<[a := None]> (heap (snd rσ))) (trace (snd rσ))).

(** One operation of a program, with the scripts of the deleter its
    cleanup may call. *)
Definition step_reentrant (scripts : list Script) (op : Op Rs) (σ : Machine Rs)
  : option (Machine Rs) :=
  match op with
  | OpMoveAssign dst other => move_assignment_reentrant scripts dst other σ
  | OpRelease a => snd <$> call a (release_reentrant scripts) σ
  | OpDestroy a => destroy_reentrant scripts a σ
  | _ => step op σ
  end.

Fixpoint run_reentrant (prog : list (list Script * Op Rs)) (σ : Machine Rs)
  : option (Machine Rs) :=
  match prog with
  | [] => Some σ
  | (scripts, op) :: prog' =>
      σ' ← step_reentrant scripts op σ; run_reentrant prog' σ'
  end.

(** A call that runs [cleanup()] again. *)
Fixpoint releasing (c : Callback) : bool :=
  match c with
  | CallRelease => true
  | Caught c' => releasing c'
  | _ => false
  end.

(** A call that only reads the guard. *)
Fixpoint observing (c : Callback) : bool :=
  match c with
  | CallGet _ | CallTryGet _ | CallBool => true
  | Caught c' => observing c'
  | _ => false
  end.

(** The deleter, in the invocation the operation makes, calls
    [release()] on its guard. *)
Definition reenters (scripts : list Script) : bool :=
  match scripts with
  | [] => false
  | script :: _ => existsb releasing script
  end.

(** The deleter, in that invocation, only reads its guard. *)
Definition only_observes (scripts : list Script) : bool :=
  match scripts with
  | [] => true
  | script :: _ => forallb observing script
  end.

(** The deleter makes no call on its guard. *)
Definition makes_no_call (scripts : list Script) : bool :=
  match scripts with
  | [] => true
  | script :: _ => match script with [] => true | _ :: _ => false end
  end.

(** The operation runs [cleanup()] on the object at [a]. *)
Definition cleans (a : addr) (op : Op Rs) : bool :=
  match op with
  | OpRelease b | OpDestroy b => Nat.eqb b a
  | OpMoveAssign dst _ => Nat.eqb dst a
  | _ => false
  end.

(** A computation that adds no event and keeps the deleter. *)
Definition silent (m : M Rs unit) : Prop :=
  forall f,
    events (snd (m f)) = events f /\
    m_deleter (this (snd (m f))) = m_deleter (this f).

End Reentrancy.

Arguments Callback Rs : clear implicits.
Arguments Script Rs : clear implicits.

(** * Properties *)

(** ** The trait *)

Lemma check_primary_TInt (x : Z) : @check _ (ValidityCheck_of TInt) x = true.
Proof. reflexivity. Qed.

Lemma check_primary_TShared (x : shared_ptr) :
  @check _ (ValidityCheck_of TShared) x = true.
Proof. reflexivity. Qed.

Lemma check_pointer_false (p : pointer) :
  @check _ (ValidityCheck_of TPtr) p = false <-> p = nullptr.
Proof.
  destruct p as [n]. unfold check, ValidityCheck_of, ValidityCheck_pointer.
  unfold pointer_neq, nullptr. simpl. rewrite negb_false_iff, N.eqb_eq.
  split; [intros -> | intros [= ->]]; reflexivity.
Qed.

(** ** Tuples *)

Lemma std_get_assign_same (I : nat) (ts : list rtype)
    (v : tuple_element I ts) (rs : tuple ts) :
  I < length ts -> std_get I (std_get_assign I v rs) = v.
Proof.
  revert I v rs. induction ts as [|t ts IH]; intros I v rs HI; simpl in *.
  - lia.
  - destruct I as [|I']; simpl; [reflexivity|]. apply IH. lia.
Qed.

Lemma std_get_assign_other (I J : nat) (ts : list rtype)
    (v : tuple_element I ts) (rs : tuple ts) :
  J <> I -> std_get J (std_get_assign I v rs) = std_get J rs.
Proof.
  revert I J v rs. induction ts as [|t ts IH]; intros I J v rs HJ; simpl.
  - reflexivity.
  - destruct I as [|I'], J as [|J']; simpl; try reflexivity.
    + congruence.
    + apply IH. congruence.
Qed.

Lemma all_valid_iff (ts : list rtype) (rs : tuple ts) :
  all_valid rs = true <->
  forall I, I < length ts -> @check _ (ValidityCheck_at I ts) (std_get I rs) = true.
Proof.
  induction ts as [|t ts IH]; simpl.
  - split; [intros _ I HI; lia | reflexivity].
  - destruct rs as [r rs']. simpl. rewrite andb_true_iff, IH. split.
    + intros [H0 HS] [|I'] HI; [exact H0 | apply HS; lia].
    + intros H. split; [apply (H 0); lia | intros I HI; apply (H (S I)); lia].
Qed.

Lemma tuple_moved_from_trivial (ts : list rtype) (rs : tuple ts) :
  forallb trivially_movable ts = true -> tuple_moved_from rs = rs.
Proof.
  induction ts as [|t ts IH]; simpl; intros H.
  - reflexivity.
  - apply andb_true_iff in H as [Ht Hts]. destruct rs as [r rs']. simpl.
    rewrite (IH rs' Hts). destruct t; simpl in *; congruence.
Qed.

(** ** Member functions on one object *)

Section MemberFunctions.

Context {Rs : list rtype}.
Implicit Types (rs : tuple Rs) (d : Deleter Rs) (evs : list (Event Rs)).
Implicit Types (g : ScopedLocalRef Rs) (f : Frame Rs).

Lemma cleanup_not_released rs d evs :
  cleanup (mkFrame (mkScopedLocalRef rs d false) evs) =
  (Return tt,
   mkFrame (mkScopedLocalRef (tuple_value_init Rs) d true)
           (evs ++ cleanup_events d rs)).
Proof.
  unfold cleanup, cleanup_events, try_catch_all, std_apply_deleter, cerr_endl,
    emit, read, assign_resources, assign_released, mbind, M_bind, mret, M_ret,
    mthrow, M_throw; simpl.
  destruct (d rs) as [[]|e]; simpl; rewrite <- ?app_assoc; reflexivity.
Qed.

Lemma cleanup_released rs d evs :
  cleanup (mkFrame (mkScopedLocalRef rs d true) evs) =
  (Return tt, mkFrame (mkScopedLocalRef rs d true) evs).
Proof. reflexivity. Qed.

Lemma calls_app evs evs' : calls (evs ++ evs') = calls evs ++ calls evs'.
Proof.
  induction evs as [|[d args|line] evs IH]; simpl; [reflexivity| |exact IH].
  now rewrite IH.
Qed.

Lemma calls_cleanup_events d rs : calls (cleanup_events d rs) = [(d, rs)].
Proof. unfold cleanup_events. destruct (d rs); reflexivity. Qed.

Lemma release_events g evs :
  events (snd (release (mkFrame g evs))) =
  evs ++ (if m_released g then []
          else cleanup_events (m_deleter g) (m_resources g)).
Proof.
  destruct g as [rs d [|]]; unfold release.
  - rewrite cleanup_released. simpl. now rewrite app_nil_r.
  - now rewrite cleanup_not_released.
Qed.

(** Move assignment from another object: what [*this] holds afterwards,
    the events, and the state of the source. *)
Lemma move_assign_from_eq (other g : ScopedLocalRef Rs) evs :
  move_assign_from other (mkFrame g evs) =
  (Return (mkScopedLocalRef
             (tuple_moved_from (m_resources other)) (m_deleter other) true),
   mkFrame (mkScopedLocalRef
              (m_resources other) (m_deleter other) (m_released other))
           (events (snd (release (mkFrame g evs))))).
Proof.
  destruct g as [rs d [|]]; unfold move_assign_from, release, mbind, M_bind.
  - rewrite cleanup_released. reflexivity.
  - rewrite cleanup_not_released. reflexivity.
Qed.

Ltac run_member :=
  unfold get, get0, try_get, try_get0, set, set0, try_set, try_set0,
    operator_bool, steal, release, destructor,
    read, assign_resources, assign_released, mbind, M_bind, mret, M_ret,
    mthrow, M_throw; simpl.

(** C4.  On a released guard [get], [set] and [steal] throw
    [std::logic_error], while [try_get] returns [std::nullopt] and
    [try_set] returns 1, without throwing; on a guard that is not released
    [get] returns the resource stored at the position asked for, [try_get]
    returns it too, and [try_set] returns 0. *)
Theorem access_by_released_flag rs d evs :
  let gone := mkFrame (mkScopedLocalRef rs d true) evs in
  let live := mkFrame (mkScopedLocalRef rs d false) evs in
  ((forall I, fst (get I gone) = Throw (logic_error "Resource released")) /\
   fst (get0 gone) = Throw (logic_error "Resource released") /\
   (forall I v, fst (set I v gone) = Throw (logic_error "Resource released")) /\
   (forall v, fst (set0 v gone) = Throw (logic_error "Resource released")) /\
   fst (steal gone) = Throw (logic_error "Already released")) /\
  ((forall I, fst (try_get I gone) = Return None) /\
   fst (try_get0 gone) = Return None /\
   (forall I v, fst (try_set I v gone) = Return 1%Z) /\
   (forall v, fst (try_set0 v gone) = Return 1%Z)) /\
  ((forall I, fst (get I live) = Return (std_get I rs)) /\
   fst (get0 live) = Return (std_get 0 rs) /\
   (forall I, fst (try_get I live) = Return (Some (std_get I rs))) /\
   fst (try_get0 live) = Return (Some (std_get 0 rs)) /\
   (forall I v, fst (try_set I v live) = Return 0%Z) /\
   (forall v, fst (try_set0 v live) = Return 0%Z)).
Proof. repeat split; intros; reflexivity. Qed.

(** C5.  The conversion to [bool] gives [true] exactly when the guard is
    not released and every stored resource passes the [ValidityCheck] of
    its type; the primary template accepts every value and the pointer
    specialisation rejects exactly [nullptr].  A guard that was never
    released and holds one null pointer converts to [false]; with a
    non-null pointer it converts to [true]. *)
Theorem operator_bool_iff rs d (released : bool) evs :
  let f := mkFrame (mkScopedLocalRef rs d released) evs in
  (exists b : bool,
      operator_bool f = (Return b, f) /\
      (b = true <->
       released = false /\
       forall I, I < length Rs ->
         @check _ (ValidityCheck_at I Rs) (std_get I rs) = true)) /\
  ((forall x : Z, @check _ (ValidityCheck_of TInt) x = true) /\
   (forall x : shared_ptr, @check _ (ValidityCheck_of TShared) x = true) /\
   (forall p : pointer, @check _ (ValidityCheck_of TPtr) p = false <-> p = nullptr)) /\
  (forall (del : Deleter [TPtr]) (es : list (Event [TPtr])),
      let single (p : pointer) :=
        mkFrame (@mkScopedLocalRef [TPtr] (p, tt) del false) es in
      fst (operator_bool (single nullptr)) = Return false /\
      forall p, p <> nullptr -> fst (operator_bool (single p)) = Return true).
Proof.
  split; [|split].
  - exists (negb released && all_valid rs). split; [reflexivity|].
    rewrite andb_true_iff, negb_true_iff, all_valid_iff. reflexivity.
  - split; [|split]; [reflexivity | reflexivity | apply check_pointer_false].
  - intros del es single. split; [reflexivity|]. intros p Hp.
    destruct p as [n]. unfold single. run_member.
    unfold check, ValidityCheck_pointer, pointer_neq. simpl.
    destruct (N.eqb_spec n 0) as [->|Hn]; [now contradiction Hp | reflexivity].
Qed.

(** C6.  [steal] on a guard that is not released returns the whole tuple of
    resources and sets [m_released], without calling the deleter; the
    destructor that runs afterwards calls nothing. *)
Theorem steal_hands_over rs d evs :
  let f := mkFrame (mkScopedLocalRef rs d false) evs in
  fst (steal f) = Return rs /\
  m_released (this (snd (steal f))) = true /\
  events (snd (steal f)) = evs /\
  destructor (snd (steal f)) = (Return tt, snd (steal f)).
Proof. repeat split; reflexivity. Qed.

(** C7.  [release] and the destructor of a guard that is not released call
    the deleter; if the call throws, the exception is caught and a line is
    written to [std::cerr], and the caller sees a normal return.  In both
    cases the resources are value-initialised and [m_released] is set. *)
Theorem cleanup_swallows_failure rs d evs :
  let f := mkFrame (mkScopedLocalRef rs d false) evs in
  let after := mkScopedLocalRef (tuple_value_init Rs) d true in
  destructor f = release f /\
  fst (release f) = Return tt /\
  this (snd (release f)) = after /\
  events (snd (release f)) =
    evs ++ match d rs with
           | Return _ => [Invoke d rs]
           | Throw _ => [Invoke d rs; Cerr "Cleanup error - potential leak"]
           end.
Proof.
  simpl. unfold destructor, release. rewrite cleanup_not_released.
  unfold cleanup_events. repeat split. simpl. now destruct (d rs).
Qed.

(** C9.  On a guard that is not released, [set] and [try_set] store the new
    value at the position given, call nothing, and leave the other
    positions, the deleter and [m_released] as they were; a later release
    or destruction calls the deleter once, with the updated resources. *)
Theorem set_replaces_one_position rs d evs I (v : tuple_element I Rs)
    (v0 : tuple_element 0 Rs) :
  let f := mkFrame (mkScopedLocalRef rs d false) evs in
  let updated i (w : tuple_element i Rs) :=
    mkFrame (mkScopedLocalRef (std_get_assign i w rs) d false) evs in
  (set I v f = (Return tt, updated I v) /\
   set0 v0 f = (Return tt, updated 0 v0) /\
   try_set I v f = (Return 0%Z, updated I v) /\
   try_set0 v0 f = (Return 0%Z, updated 0 v0)) /\
  ((I < length Rs -> std_get I (std_get_assign I v rs) = v) /\
   (forall J, J <> I -> std_get J (std_get_assign I v rs) = std_get J rs)) /\
  (calls (events (snd (release (updated I v)))) =
     calls evs ++ [(d, std_get_assign I v rs)] /\
   calls (events (snd (destructor (updated I v)))) =
     calls evs ++ [(d, std_get_assign I v rs)]).
Proof.
  simpl. split; [|split].
  - repeat split; reflexivity.
  - split; [apply std_get_assign_same | intros J HJ; now apply std_get_assign_other].
  - unfold destructor, release. rewrite cleanup_not_released. simpl.
    rewrite calls_app, calls_cleanup_events. split; reflexivity.
Qed.

(** C10.  On a released guard the member functions that throw ([get],
    [set], [steal]) leave the resources, the deleter, [m_released] and the
    event log exactly as they were. *)
Theorem throwing_access_changes_nothing rs d evs :
  let f := mkFrame (mkScopedLocalRef rs d true) evs in
  (forall I, get I f = (Throw (logic_error "Resource released"), f)) /\
  get0 f = (Throw (logic_error "Resource released"), f) /\
  (forall I v, set I v f = (Throw (logic_error "Resource released"), f)) /\
  (forall v, set0 v f = (Throw (logic_error "Resource released"), f)) /\
  steal f = (Throw (logic_error "Already released"), f).
Proof. repeat split; intros; reflexivity. Qed.

End MemberFunctions.

(** ** Objects in a program *)

Section Programs.

Context {Rs : list rtype}.
Implicit Types (rs : tuple Rs) (d : Deleter Rs) (evs : list (Event Rs)).
Implicit Types (g o : ScopedLocalRef Rs) (σ : Machine Rs) (a b : addr).
Implicit Types (h : list (option (ScopedLocalRef Rs))).
Implicit Types (tr : list (addr * Event Rs)).

Lemma object_lt σ a g : object σ a = Some g -> a < length (heap σ).
Proof.
  unfold object. destruct (heap σ !! a) as [x|] eqn:E; [|discriminate].
  intros _. now apply lookup_lt_Some in E.
Qed.

Lemma object_insert_eq h tr a (x : option (ScopedLocalRef Rs)) :
  a < length h -> object (mkMachine (<[a := x]> h) tr) a = x.
Proof.
  intros Ha. unfold object. simpl. rewrite list_lookup_insert_eq by exact Ha.
  now destruct x.
Qed.

Lemma object_insert_ne h tr tr' a b (x : option (ScopedLocalRef Rs)) :
  a <> b -> object (mkMachine (<[b := x]> h) tr) a = object (mkMachine h tr') a.
Proof.
  intros Hab. unfold object. simpl. now rewrite list_lookup_insert_ne by congruence.
Qed.

Lemma object_app_l h h' tr tr' a :
  a < length h -> object (mkMachine (h ++ h') tr) a = object (mkMachine h tr') a.
Proof. intros Ha. unfold object. simpl. now rewrite lookup_app_l by exact Ha. Qed.

Lemma object_app_new h tr g :
  object (mkMachine (h ++ [Some g]) tr) (length h) = Some g.
Proof.
  unfold object. simpl. rewrite lookup_app_r by lia.
  now rewrite Nat.sub_diag.
Qed.

Lemma invocations_app a tr tr' :
  invocations a (tr ++ tr') = invocations a tr + invocations a tr'.
Proof. unfold invocations. now rewrite List.filter_app, length_app. Qed.

Lemma invocations_other a b evs :
  a <> b -> invocations a (map (pair b) evs) = 0.
Proof.
  intros Hab. unfold invocations, invoked_by.
  induction evs as [|e evs IH]; simpl; [reflexivity|].
  destruct (Nat.eqb_spec b a) as [->|_]; [contradiction|]. exact IH.
Qed.

Lemma invocations_own a evs :
  invocations a (map (pair a) evs) = length (calls evs).
Proof.
  unfold invocations, invoked_by.
  induction evs as [|[d args|line] evs IH]; simpl; rewrite ?Nat.eqb_refl; simpl;
    [reflexivity | now rewrite IH | exact IH].
Qed.

Lemma call_eq {A : Type} a (m : M Rs A) σ g :
  object σ a = Some g ->
  call a m σ =
  Some (fst (m (mkFrame g [])),
        mkMachine (<[a := Some (this (snd (m (mkFrame g []))))]> (heap σ))
                  (trace σ ++ map (pair a) (events (snd (m (mkFrame g [])))))).
Proof. intros Hg. unfold call. now rewrite Hg. Qed.

(** An operation on live objects always has a successor state: [step]
    fails only when an object is used outside its lifetime. *)
Lemma step_defined (op : Op Rs) σ :
  (forall b, In b (operands op) -> is_Some (object σ b)) ->
  is_Some (step op σ).
Proof.
  intros Hlive.
  assert (Hcalls : forall (A : Type) (m : M Rs A) b,
             is_Some (object σ b) -> is_Some (snd <$> call b m σ)).
  { intros A m b [g Hg]. rewrite (call_eq _ _ _ _ Hg). now eexists. }
  destruct op as [d args|other|dst other|b i|b i|b i v|b i v|b|b|b|b];
    simpl in Hlive |- *; try (apply Hcalls; apply Hlive; now left).
  - now eexists.
  - destruct (Hlive other) as [o Ho]; [now left|].
    unfold move_constructor. rewrite Ho. now eexists.
  - destruct (Hlive dst) as [gd Hd]; [now left|].
    destruct (Hlive other) as [o Ho]; [right; now left|].
    unfold move_assignment. rewrite Hd, Ho. cbn [mbind option_bind].
    destruct (decide (dst ≠ other)) as [_|_]; [|now eexists].
    rewrite (call_eq _ _ _ _ Hd), move_assign_from_eq. now eexists.
  - destruct (Hlive b) as [g Hg]; [now left|].
    unfold destroy. rewrite (call_eq _ _ _ _ Hg). now eexists.
Qed.

(** A member function that does not change [*this], called on any object,
    leaves the object at [a] as it is; so does any member function called
    on another object. *)
Lemma call_keeps_object {A : Type} (m : M Rs A) σ σ' a b (r : result A) g :
  (b = a -> forall g', this (snd (m (mkFrame g' []))) = g') ->
  call b m σ = Some (r, σ') ->
  object σ a = Some g ->
  object σ' a = Some g.
Proof.
  intros Hconst Hcall Hg. unfold call in Hcall.
  destruct (object σ b) as [gb|] eqn:Hb; [|discriminate]. simpl in Hcall.
  injection Hcall as _ <-. destruct (decide (b = a)) as [->|Hne].
  - rewrite object_insert_eq by exact (object_lt _ _ _ Hg).
    rewrite (Hconst eq_refl). congruence.
  - rewrite (object_insert_ne _ _ (trace σ)) by congruence. now destruct σ.
Qed.

Lemma step_keeps_object (op : Op Rs) σ σ' a g :
  keeps a op = true ->
  step op σ = Some σ' ->
  object σ a = Some g ->
  object σ' a = Some g.
Proof.
  intros Hop Hstep Hg. pose proof (object_lt _ _ _ Hg) as Ha.
  assert (Hcalls : forall (A : Type) (m : M Rs A) b,
             (b = a -> forall g', this (snd (m (mkFrame g' []))) = g') ->
             snd <$> call b m σ = Some σ' -> object σ' a = Some g).
  { intros A m b Hm Hc. destruct (call b m σ) as [[r σ1]|] eqn:E; [|discriminate].
    injection Hc as <-. exact (call_keeps_object m σ σ1 a b r g Hm E Hg). }
  assert (Hneq : forall b, negb (Nat.eqb b a) = true -> b <> a).
  { intros b Hb. apply negb_true_iff in Hb. now apply Nat.eqb_neq. }
  destruct op as [d args|other|dst other|b i|b i|b i v|b i v|b|b|b|b];
    simpl in Hop, Hstep.
  - injection Hstep as <-. unfold new_object.
    now rewrite (object_app_l _ _ _ (trace σ)).
  - apply Hneq in Hop. unfold move_constructor in Hstep.
    destruct (object σ other) as [o|] eqn:Ho; [|discriminate].
    injection Hstep as <-. unfold new_object. cbn [heap trace].
    rewrite (object_app_l _ _ _ (trace σ)) by now rewrite length_insert.
    rewrite (object_insert_ne _ _ (trace σ)) by congruence. now destruct σ.
  - apply andb_true_iff in Hop as [Hdst Hother].
    apply Hneq in Hdst. apply Hneq in Hother.
    unfold move_assignment in Hstep.
    destruct (object σ dst) as [gd|] eqn:Hd; [|discriminate].
    destruct (object σ other) as [o|] eqn:Ho; [|discriminate].
    cbn [mbind option_bind] in Hstep.
    destruct (decide (dst ≠ other)) as [Hne|_]; [|now injection Hstep as <-].
    rewrite (call_eq _ _ _ _ Hd), move_assign_from_eq in Hstep.
    cbn [mbind option_bind fst snd heap trace] in Hstep.
    injection Hstep as <-.
    rewrite (object_insert_ne _ _ (trace σ)) by congruence.
    rewrite (object_insert_ne _ _ (trace σ)) by congruence. now destruct σ.
  - refine (Hcalls _ (get i) b _ Hstep). intros _ [rs' d' [|]]; reflexivity.
  - refine (Hcalls _ (try_get i) b _ Hstep). intros _ [rs' d' [|]]; reflexivity.
  - refine (Hcalls _ (set i v) b _ Hstep). intros Hb. now apply Hneq in Hop.
  - refine (Hcalls _ (try_set i v) b _ Hstep). intros Hb. now apply Hneq in Hop.
  - refine (Hcalls _ operator_bool b _ Hstep). intros _ [rs' d' [|]]; reflexivity.
  - refine (Hcalls _ release b _ Hstep). intros Hb. now apply Hneq in Hop.
  - refine (Hcalls _ steal b _ Hstep). intros Hb. now apply Hneq in Hop.
  - apply Hneq in Hop. unfold destroy in Hstep.
    destruct (call b destructor σ) as [[r σ1]|] eqn:E; [|discriminate].
    injection Hstep as <-. cbn [snd].
    rewrite (object_insert_ne _ _ (trace σ1)) by congruence.
    replace (mkMachine (heap σ1) (trace σ1)) with σ1 by now destruct σ1.
    refine (call_keeps_object destructor σ σ1 a b r g _ E Hg).
    intros Hb. now contradiction Hop.
Qed.

Lemma run_keeps_object (ops : list (Op Rs)) σ σ' a g :
  forallb (keeps a) ops = true ->
  run ops σ = Some σ' ->
  object σ a = Some g ->
  object σ' a = Some g.
Proof.
  revert σ. induction ops as [|op ops IH]; intros σ Hops Hrun Hg; simpl in *.
  - now injection Hrun as <-.
  - apply andb_true_iff in Hops as [Hop Hops].
    destruct (step op σ) as [σ1|] eqn:E; [|discriminate]. simpl in Hrun.
    apply (IH σ1 Hops Hrun). exact (step_keeps_object op σ σ1 a g Hop E Hg).
Qed.

(** A guard that is still in the state the constructor gave it, with a
    deleter [C] that makes no call on it, calls [C] exactly once when it is
    destroyed, with [rs] in the declared order; the only other thing it
    may do is write the line on [std::cerr] when [C] throws. *)
Lemma destroy_invokes_cleanup_once σ a (C : Deleter Rs) rs :
  object σ a = Some (construct C rs) ->
  exists σ' evs,
    destroy a σ = Some σ' /\
    trace σ' = trace σ ++ map (pair a) evs /\
    calls evs = [(C, rs)] /\
    invocations a (trace σ') = S (invocations a (trace σ)) /\
    object σ' a = None.
Proof.
  intros Hg. exists
    (mkMachine
       (<[a := None]> (<[a := Some (mkScopedLocalRef (tuple_value_init Rs) C true)]> (heap σ)))
       (trace σ ++ map (pair a) (cleanup_events C rs))),
    (cleanup_events C rs).
  split; [|split; [|split; [|split]]].
  - unfold destroy. rewrite (call_eq _ _ _ _ Hg). unfold destructor, construct.
    rewrite cleanup_not_released. reflexivity.
  - reflexivity.
  - apply calls_cleanup_events.
  - cbn [trace]. rewrite invocations_app, invocations_own, calls_cleanup_events.
    simpl. lia.
  - apply object_insert_eq. rewrite length_insert. exact (object_lt _ _ _ Hg).
Qed.

(** C3, amended.  Move construction from a guard that is not released gives
    the new guard the resources, the deleter and the released flag of the
    source, sets [m_released] in the source, and calls nothing.  The
    resources of the source are left in their moved-from state, which for
    integers and raw pointers is the value they had: they are not reset. *)
Theorem move_construct_transfers σ a g :
  object σ a = Some g ->
  m_released g = false ->
  exists σ',
    move_constructor a σ = Some σ' /\
    object σ' (length (heap σ)) =
      Some (mkScopedLocalRef (m_resources g) (m_deleter g) false) /\
    object σ' a =
      Some (mkScopedLocalRef (tuple_moved_from (m_resources g)) (m_deleter g) true) /\
    (forallb trivially_movable Rs = true ->
     tuple_moved_from (m_resources g) = m_resources g) /\
    trace σ' = trace σ.
Proof.
  intros Hg Hrel. pose proof (object_lt _ _ _ Hg) as Ha.
  eexists. split; [|split; [|split; [|split]]].
  - unfold move_constructor. rewrite Hg. reflexivity.
  - unfold new_object, move_construct. simpl. rewrite Hrel.
    erewrite <- (length_insert (heap σ)). apply object_app_new.
  - unfold new_object, move_construct. simpl.
    rewrite (object_app_l _ _ _ (trace σ)) by now rewrite length_insert.
    now apply object_insert_eq.
  - apply tuple_moved_from_trivial.
  - reflexivity.
Qed.

(** C8.  Move assignment between two different guards first runs the
    cleanup of the destination (which calls the destination's deleter on
    its old resources if it was not released), then gives the destination
    the resources, the deleter and the released flag of the source and
    sets [m_released] in the source; no other object changes.  Assigning a
    guard to itself changes nothing and calls nothing. *)
Theorem move_assignment_releases_then_transfers σ dst src (gd gs : ScopedLocalRef Rs) :
  object σ dst = Some gd ->
  object σ src = Some gs ->
  (dst <> src ->
   exists σ',
     move_assignment dst src σ = Some σ' /\
     trace σ' = trace σ ++ map (pair dst) (events (snd (release (mkFrame gd [])))) /\
     events (snd (release (mkFrame gd []))) =
       (if m_released gd then []
        else cleanup_events (m_deleter gd) (m_resources gd)) /\
     object σ' dst =
       Some (mkScopedLocalRef (m_resources gs) (m_deleter gs) (m_released gs)) /\
     object σ' src =
       Some (mkScopedLocalRef (tuple_moved_from (m_resources gs)) (m_deleter gs) true) /\
     (forall b, b <> dst -> b <> src -> object σ' b = object σ b)) /\
  move_assignment dst dst σ = Some σ.
Proof.
  intros Hd Hs. pose proof (object_lt _ _ _ Hd) as Hdlt.
  pose proof (object_lt _ _ _ Hs) as Hslt. split.
  - intros Hne. eexists. split; [|split; [|split; [|split; [|split]]]].
    + unfold move_assignment. rewrite Hd, Hs. cbn [mbind option_bind].
      destruct (decide (dst ≠ src)) as [_|Hc]; [|contradiction].
      rewrite (call_eq _ _ _ _ Hd), move_assign_from_eq. reflexivity.
    + reflexivity.
    + apply (release_events gd []).
    + cbn [heap snd]. rewrite (object_insert_ne _ _ (trace σ)) by exact Hne.
      now apply object_insert_eq.
    + cbn [heap snd]. apply object_insert_eq. now rewrite length_insert.
    + intros b Hbd Hbs. cbn [heap snd].
      rewrite (object_insert_ne _ _ (trace σ)) by exact Hbs.
      rewrite (object_insert_ne _ _ (trace σ)) by exact Hbd.
      now destruct σ.
  - unfold move_assignment. rewrite Hd. cbn [mbind option_bind].
    destruct (decide (dst ≠ dst)) as [Hc|_]; [contradiction|reflexivity].
Qed.

Lemma tame_cleanup : tame (@cleanup Rs).
Proof.
  intros [rs d [|]]; simpl; split; intros H; try discriminate.
  - split; reflexivity.
  - right. rewrite cleanup_not_released. cbn [snd events this app m_released].
    rewrite calls_cleanup_events. split; reflexivity.
Qed.

Lemma tame_get I : tame (@get Rs I).
Proof. intros [rs d [|]]; simpl; split; intros H; try discriminate; auto. Qed.

Lemma tame_try_get I : tame (@try_get Rs I).
Proof. intros [rs d [|]]; simpl; split; intros H; try discriminate; auto. Qed.

Lemma tame_set I v : tame (@set Rs I v).
Proof. intros [rs d [|]]; simpl; split; intros H; try discriminate; auto. Qed.

Lemma tame_try_set I v : tame (@try_set Rs I v).
Proof. intros [rs d [|]]; simpl; split; intros H; try discriminate; auto. Qed.

Lemma tame_operator_bool : tame (@operator_bool Rs).
Proof. intros [rs d [|]]; simpl; split; intros H; try discriminate; auto. Qed.

Lemma tame_steal : tame (@steal Rs).
Proof. intros [rs d [|]]; simpl; split; intros H; try discriminate; auto. Qed.

Lemma at_most_once_heap σ h' a :
  at_most_once σ a ->
  length (heap σ) <= length h' ->
  (a < length (heap σ) ->
   forall g', object (mkMachine h' (trace σ)) a = Some g' ->
              m_released g' = true \/ object σ a = Some g') ->
  at_most_once (mkMachine h' (trace σ)) a.
Proof.
  intros [H0|[H1 [Hlt Hrel]]] Hlen Hobj; [now left|].
  right. split; [exact H1|]. split; [simpl; lia|].
  intros g' Hg'. destruct (Hobj Hlt g' Hg') as [Hr|Hsame]; [exact Hr|].
  now apply Hrel.
Qed.

Lemma at_most_once_quiet σ a b evs :
  at_most_once σ a ->
  a <> b ->
  at_most_once (mkMachine (heap σ) (trace σ ++ map (pair b) evs)) a.
Proof.
  intros H Hab. unfold at_most_once, spent in *. cbn [trace heap].
  rewrite invocations_app, (invocations_other a b evs Hab), Nat.add_0_r.
  exact H.
Qed.

Lemma call_at_most_once {A : Type} (m : M Rs A) σ σ' a b (r : result A) :
  tame m ->
  call b m σ = Some (r, σ') ->
  at_most_once σ a ->
  at_most_once σ' a.
Proof.
  intros Hm Hcall Hinv. unfold call in Hcall.
  destruct (object σ b) as [g|] eqn:Hg; [|discriminate]. simpl in Hcall.
  injection Hcall as _ <-. pose proof (object_lt _ _ _ Hg) as Hb.
  destruct (Hm g) as [Hrel Hlive]. cbn zeta in Hrel, Hlive.
  set (f := snd (m (mkFrame g []))) in *.
  destruct (decide (a = b)) as [->|Hab].
  - unfold at_most_once, spent. cbn [trace heap].
    rewrite invocations_app, invocations_own, length_insert.
    assert (Hobj : forall g', object
               (mkMachine (<[b := Some (this f)]> (heap σ))
                  (trace σ ++ map (pair b) (events f))) b = Some g' ->
               g' = this f).
    { intros g'. rewrite object_insert_eq by exact Hb. congruence. }
    destruct Hinv as [H0|[H1 [_ Hspent]]].
    + destruct (m_released g) eqn:Eg.
      * destruct (Hrel eq_refl) as [-> _]. left. simpl. lia.
      * destruct (Hlive eq_refl) as [->|[Hone Hr]]; [left; simpl; lia|].
        right. split; [lia|]. split; [exact Hb|].
        intros g' Hg'. now rewrite (Hobj g' Hg').
    + destruct (Hrel (Hspent g Hg)) as [-> Hr]. right.
      split; [simpl; lia|]. split; [exact Hb|].
      intros g' Hg'. now rewrite (Hobj g' Hg').
  - apply (at_most_once_heap
             (mkMachine (heap σ) (trace σ ++ map (pair b) (events f)))).
    + now apply at_most_once_quiet.
    + cbn [heap]. now rewrite length_insert.
    + intros _ g' Hg'. right.
      now rewrite (object_insert_ne _ _ (trace σ ++ map (pair b) (events f))) in Hg'.
Qed.

Lemma new_object_at_most_once σ a g :
  at_most_once σ a -> at_most_once (new_object g σ) a.
Proof.
  intros H. apply (at_most_once_heap σ); [exact H | rewrite length_app; lia |].
  intros Hlt g' Hg'. right.
  now rewrite (object_app_l _ _ _ (trace σ)) in Hg'.
Qed.

(** Storing a released guard (or nothing) at [b] keeps the invariant. *)
Lemma store_released_at_most_once σ a b (x : option (ScopedLocalRef Rs)) :
  at_most_once σ a ->
  (forall g, x = Some g -> m_released g = true) ->
  at_most_once (mkMachine (<[b := x]> (heap σ)) (trace σ)) a.
Proof.
  intros H Hx. apply (at_most_once_heap σ); [exact H | now rewrite length_insert |].
  intros Hlt g' Hg'. destruct (decide (a = b)) as [->|Hab].
  - left. rewrite object_insert_eq in Hg' by exact Hlt. now apply Hx.
  - right. now rewrite (object_insert_ne _ _ (trace σ)) in Hg'.
Qed.

Lemma step_at_most_once (op : Op Rs) σ σ' a :
  assigns_into a op = false ->
  step op σ = Some σ' ->
  at_most_once σ a ->
  at_most_once σ' a.
Proof.
  intros Hop Hstep Hinv.
  assert (Hcalls : forall (A : Type) (m : M Rs A) b,
             tame m -> snd <$> call b m σ = Some σ' -> at_most_once σ' a).
  { intros A m b Hm Hc. destruct (call b m σ) as [[r σ1]|] eqn:E; [|discriminate].
    injection Hc as <-. exact (call_at_most_once m σ σ1 a b r Hm E Hinv). }
  destruct op as [d args|other|dst other|b i|b i|b i v|b i v|b|b|b|b];
    simpl in Hstep.
  - injection Hstep as <-. now apply new_object_at_most_once.
  - unfold move_constructor in Hstep.
    destruct (object σ other) as [o|] eqn:Ho; [|discriminate].
    injection Hstep as <-. apply new_object_at_most_once.
    apply store_released_at_most_once; [exact Hinv|].
    now intros g [= <-].
  - simpl in Hop. apply Nat.eqb_neq in Hop.
    unfold move_assignment in Hstep.
    destruct (object σ dst) as [gd|] eqn:Hd; [|discriminate].
    destruct (object σ other) as [o|] eqn:Ho; [|discriminate].
    cbn [mbind option_bind] in Hstep.
    destruct (decide (dst ≠ other)) as [Hne|_].
    + rewrite (call_eq _ _ _ _ Hd) in Hstep.
      cbn [mbind option_bind fst snd heap trace] in Hstep.
      destruct (fst (move_assign_from o (mkFrame gd []))) as [o'|e] eqn:Er;
        [|discriminate].
      injection Hstep as <-.
      assert (Ho' : m_released o' = true).
      { rewrite move_assign_from_eq in Er. now injection Er as <-. }
      set (f := snd (move_assign_from o (mkFrame gd []))).
      refine (store_released_at_most_once
                (mkMachine (<[dst := Some (this f)]> (heap σ))
                   (trace σ ++ map (pair dst) (events f)))
                a other (Some o') _ _).
      * refine (at_most_once_heap
                  (mkMachine (heap σ) (trace σ ++ map (pair dst) (events f)))
                  (<[dst := Some (this f)]> (heap σ)) a _ _ _).
        -- apply at_most_once_quiet; [exact Hinv | congruence].
        -- rewrite length_insert. reflexivity.
        -- intros _ g' Hg'. right.
           rewrite (object_insert_ne _ _ (trace σ ++ map (pair dst) (events f)))
             in Hg' by congruence.
           exact Hg'.
      * now intros g [= <-].
    + now injection Hstep as <-.
  - exact (Hcalls _ _ b (tame_get i) Hstep).
  - exact (Hcalls _ _ b (tame_try_get i) Hstep).
  - exact (Hcalls _ _ b (tame_set i v) Hstep).
  - exact (Hcalls _ _ b (tame_try_set i v) Hstep).
  - exact (Hcalls _ _ b tame_operator_bool Hstep).
  - exact (Hcalls _ _ b tame_cleanup Hstep).
  - exact (Hcalls _ _ b tame_steal Hstep).
  - unfold destroy in Hstep.
    destruct (call b destructor σ) as [[r σ1]|] eqn:E; [|discriminate].
    injection Hstep as <-. simpl.
    apply store_released_at_most_once; [|discriminate].
    exact (call_at_most_once _ σ σ1 a b r tame_cleanup E Hinv).
Qed.

Lemma run_at_most_once (ops : list (Op Rs)) σ σ' a :
  forallb (fun op => negb (assigns_into a op)) ops = true ->
  run ops σ = Some σ' ->
  at_most_once σ a ->
  at_most_once σ' a.
Proof.
  revert σ. induction ops as [|op ops IH]; intros σ Hops Hrun Hinv; simpl in *.
  - now injection Hrun as <-.
  - apply andb_true_iff in Hops as [Hop Hops]. apply negb_true_iff in Hop.
    destruct (step op σ) as [σ1|] eqn:E; [|discriminate]. simpl in Hrun.
    apply (IH σ1 Hops Hrun). exact (step_at_most_once op σ σ1 a Hop E Hinv).
Qed.

(** For deleters that make no call on their guard: over any sequence of
    operations of a program that starts with no objects and does not
    move-assign into the guard at [a], that guard calls its deleter at
    most once; a second [release] after a first does nothing. *)
Lemma cleanup_at_most_once (ops : list (Op Rs)) σ a :
  run ops (initial Rs) = Some σ ->
  forallb (fun op => negb (assigns_into a op)) ops = true ->
  invocations a (trace σ) <= 1 /\
  (forall f : Frame Rs,
      release (snd (release f)) = (Return tt, snd (release f))).
Proof.
  intros Hrun Hops. split.
  - assert (H : at_most_once σ a).
    { apply (run_at_most_once ops (initial Rs) σ a Hops Hrun). now left. }
    destruct H as [->|[-> _]]; lia.
  - intros [[rs d [|]] evs]; unfold release.
    + reflexivity.
    + now rewrite cleanup_not_released.
Qed.

End Programs.

(** ** Examples *)

Section Examples.

(** A guard for [fd = 5]: [get] gives 5, [release] calls [close_fn(5)]
    once, [get] then throws and a second [release] calls nothing. *)
Example scenario_release :
  fst (get0 (mkFrame fd5 [])) = Return 5%Z /\
  events (snd (release (mkFrame fd5 []))) = [Invoke close_fn (5%Z, tt)] /\
  fst (get0 (snd (release (mkFrame fd5 [])))) =
    Throw (logic_error "Resource released") /\
  events (snd (release (snd (release (mkFrame fd5 []))))) =
    [Invoke close_fn (5%Z, tt)].
Proof. repeat split; reflexivity. Qed.

(** A guard for [(ptr = 0x1, count = 3)]: [try_get<1>] gives 3, after
    [set<1>(7)] it gives 7, and destruction calls the deleter with
    [(0x1, 7)]. *)
Example scenario_set :
  let f := mkFrame pair3 [] in
  fst (try_get 1 f) = Return (Some 3%Z) /\
  fst (try_get 1 (snd (@set [TPtr; TInt] 1 7%Z f))) = Return (Some 7%Z) /\
  events (snd (destructor (snd (@set [TPtr; TInt] 1 7%Z f)))) =
    [Invoke free_both (Ptr 1, (7%Z, tt))].
Proof. repeat split; reflexivity. Qed.

(** [steal] returns the resources and the destructor then calls nothing. *)
Example scenario_steal :
  let f := mkFrame (@make_scoped_ref [TPtr; TInt] free_both (Ptr 1, (7%Z, tt))) [] in
  fst (steal f) = Return (Ptr 1, (7%Z, tt)) /\
  m_released (this (snd (steal f))) = true /\
  events (snd (destructor (snd (steal f)))) = [].
Proof. repeat split; reflexivity. Qed.

(** A deleter that throws: the exception stays inside [release]. *)
Example scenario_failing_deleter :
  release (mkFrame (@construct [TInt] (failing_deleter [TInt]) (5%Z, tt)) []) =
  (Return tt,
   mkFrame (@mkScopedLocalRef [TInt] (0%Z, tt) (failing_deleter [TInt]) true)
     [Invoke (failing_deleter [TInt]) (5%Z, tt);
      Cerr "Cleanup error - potential leak"]).
Proof. reflexivity. Qed.

(** A [shared_ptr] resource is emptied by a move; an [int] is not. *)
Example scenario_moved_from :
  @tuple_moved_from [TShared; TInt] (Shared (Ptr 8), (4%Z, tt)) =
  (Shared nullptr, (4%Z, tt)).
Proof. reflexivity. Qed.

(** A guard that is assigned into cleans up what it held and later cleans
    up what it received.  Two guards are constructed,
    the second is move-assigned into the first, and the first is destroyed:
    the first guard has then called the deleter twice. *)
Lemma move_assignment_invokes_twice :
  let ops : list (Op [TInt]) :=
    [OpConstruct close_fn (1%Z, tt);
     OpConstruct close_fn (2%Z, tt);
     OpMoveAssign 0 1;
     OpDestroy 0] in
  exists σ,
    run ops (initial [TInt]) = Some σ /\
    trace σ = [(0, Invoke close_fn (1%Z, tt)); (0, Invoke close_fn (2%Z, tt))] /\
    invocations 0 (trace σ) = 2 /\
    ~ invocations 0 (trace σ) <= 1.
Proof.
  eexists. split; [reflexivity|]. split; [reflexivity|].
  split; [reflexivity|]. change (~ 2 <= 1). lia.
Qed.

(** C3, as stated, fails: after move construction from a guard holding the
    descriptor 5 the source still stores 5, not the value-initialised 0. *)
Lemma move_construct_keeps_source_values :
  let g : ScopedLocalRef [TInt] := construct close_fn (5%Z, tt) in
  m_released g = false /\
  m_released (snd (move_construct g)) = true /\
  m_resources (snd (move_construct g)) = (5%Z, tt) /\
  m_resources (snd (move_construct g)) <> tuple_value_init [TInt].
Proof. repeat split; try reflexivity. simpl. intros [=]. Qed.

Lemma move_construct_transfers_witness :
  let g : ScopedLocalRef [TPtr; TInt] := construct free_both (Ptr 1, (3%Z, tt)) in
  let σ := new_object g (initial [TPtr; TInt]) in
  object σ 0 = Some g /\
  m_released g = false /\
  exists σ',
    move_constructor 0 σ = Some σ' /\
    object σ' (length (heap σ)) =
      Some (mkScopedLocalRef (m_resources g) (m_deleter g) false) /\
    object σ' 0 =
      Some (mkScopedLocalRef (tuple_moved_from (m_resources g)) (m_deleter g) true) /\
    (forallb trivially_movable [TPtr; TInt] = true ->
     tuple_moved_from (m_resources g) = m_resources g) /\
    trace σ' = trace σ.
Proof.
  split; [reflexivity|]. split; [reflexivity|].
  apply (move_construct_transfers
           (new_object (construct free_both (Ptr 1, (3%Z, tt)))
              (initial [TPtr; TInt]))
           0 (construct free_both (Ptr 1, (3%Z, tt))));
    reflexivity.
Defined.

Lemma move_assignment_releases_then_transfers_witness :
  let gd : ScopedLocalRef [TInt] := construct close_fn (1%Z, tt) in
  let gs : ScopedLocalRef [TInt] := construct (failing_deleter [TInt]) (2%Z, tt) in
  let σ := new_object gs (new_object gd (initial [TInt])) in
  object σ 0 = Some gd /\
  object σ 1 = Some gs /\
  0 <> 1 /\
  (exists σ',
     move_assignment 0 1 σ = Some σ' /\
     trace σ' = trace σ ++ map (pair 0) (events (snd (release (mkFrame gd [])))) /\
     events (snd (release (mkFrame gd []))) =
       (if m_released gd then []
        else cleanup_events (m_deleter gd) (m_resources gd)) /\
     object σ' 0 =
       Some (mkScopedLocalRef (m_resources gs) (m_deleter gs) (m_released gs)) /\
     object σ' 1 =
       Some (mkScopedLocalRef (tuple_moved_from (m_resources gs)) (m_deleter gs) true) /\
     (forall b, b <> 0 -> b <> 1 -> object σ' b = object σ b)) /\
  move_assignment 0 0 σ = Some σ.
Proof.
  split; [reflexivity|]. split; [reflexivity|]. split; [lia|].
  destruct (move_assignment_releases_then_transfers
              (new_object (construct (failing_deleter [TInt]) (2%Z, tt))
                 (new_object (construct close_fn (1%Z, tt)) (initial [TInt])))
              0 1
              (construct close_fn (1%Z, tt))
              (construct (failing_deleter [TInt]) (2%Z, tt))
              eq_refl eq_refl) as [Hmove Hself].
  split; [apply Hmove; lia | exact Hself].
Defined.

(** The resulting objects and trace of that assignment, computed. *)
Example scenario_move_assignment :
  let σ : Machine [TInt] :=
    new_object (construct (failing_deleter [TInt]) (2%Z, tt))
      (new_object (construct close_fn (1%Z, tt)) (initial [TInt])) in
  move_assignment 0 1 σ =
    Some (mkMachine
            [Some (@mkScopedLocalRef [TInt] (2%Z, tt) (failing_deleter [TInt]) false);
             Some (@mkScopedLocalRef [TInt] (2%Z, tt) (failing_deleter [TInt]) true)]
            [(0, Invoke close_fn (1%Z, tt))]).
Proof. reflexivity. Qed.

Lemma set_replaces_one_position_witness :
  let rs : tuple [TPtr; TInt] := (Ptr 1, (3%Z, tt)) in
  let f := mkFrame (mkScopedLocalRef rs free_both false) [] in
  1 < length [TPtr; TInt] /\
  @set [TPtr; TInt] 1 7%Z f =
    (Return tt,
     mkFrame (@mkScopedLocalRef [TPtr; TInt] (Ptr 1, (7%Z, tt)) free_both false) []) /\
  std_get 1 (@std_get_assign 1 [TPtr; TInt] 7%Z rs) = 7%Z /\
  std_get 0 (@std_get_assign 1 [TPtr; TInt] 7%Z rs) = Ptr 1 /\
  calls (events (snd (destructor (snd (@set [TPtr; TInt] 1 7%Z f))))) =
    [(free_both, (Ptr 1, (7%Z, tt)))].
Proof.
  destruct (@set_replaces_one_position [TPtr; TInt]
              (Ptr 1, (3%Z, tt)) free_both [] 1 7%Z (Ptr 2))
    as [[Hset _] [[Hsame Hother] [_ Hdestroy]]].
  split; [simpl; lia|]. split; [exact Hset|].
  split; [apply Hsame; simpl; lia|].
  split; [apply (Hother 0); lia|].
  exact Hdestroy.
Defined.

End Examples.

(** * Further properties of the member functions *)

Section Accessors.

Context {Rs : list rtype}.
Implicit Types (rs : tuple Rs) (d : Deleter Rs) (evs : list (Event Rs)).
Implicit Types (f : Frame Rs).

Ltac run_accessor :=
  unfold get, try_get, set, try_set, operator_bool, steal,
    read, assign_resources, assign_released, mbind, M_bind, mret, M_ret,
    mthrow, M_throw; simpl.

Lemma std_get_assign_twice (I : nat) (ts : list rtype)
    (v w : tuple_element I ts) (rs : tuple ts) :
  std_get_assign I w (std_get_assign I v rs) = std_get_assign I w rs.
Proof.
  revert I v w rs. induction ts as [|t ts IH]; intros I v w rs; simpl.
  - reflexivity.
  - destruct I as [|I']; simpl; [reflexivity|]. now rewrite IH.
Qed.

Lemma std_get_assign_swap (I J : nat) (ts : list rtype)
    (v : tuple_element I ts) (w : tuple_element J ts) (rs : tuple ts) :
  I <> J ->
  std_get_assign J w (std_get_assign I v rs) =
  std_get_assign I v (std_get_assign J w rs).
Proof.
  revert I J v w rs. induction ts as [|t ts IH]; intros I J v w rs HIJ; simpl.
  - reflexivity.
  - destruct I as [|I'], J as [|J']; simpl; try reflexivity.
    + congruence.
    + rewrite IH by congruence. reflexivity.
Qed.

(** X1.  What [set<I>] (or a successful [try_set<I>]) stored is what
    [get<I>] and [try_get<I>] return afterwards, for an index in range on a
    guard that is not released. *)
Theorem get_after_set f I (v : tuple_element I Rs) :
  I < length Rs ->
  m_released (this f) = false ->
  fst (get I (snd (set I v f))) = Return v /\
  fst (try_get I (snd (set I v f))) = Return (Some v) /\
  fst (get I (snd (try_set I v f))) = Return v /\
  fst (try_get I (snd (try_set I v f))) = Return (Some v).
Proof.
  intros HI Hrel. destruct f as [[rs d r] evs]. simpl in Hrel. subst r.
  run_accessor. rewrite std_get_assign_same by exact HI. repeat split.
Qed.

(** X2.  Two [set<I>] on the same position: the last one wins, whatever
    the state of the guard (on a released guard both throw and nothing
    changes). *)
Theorem set_overwrites f I (v w : tuple_element I Rs) :
  snd (set I w (snd (set I v f))) = snd (set I w f) /\
  snd (try_set I w (snd (try_set I v f))) = snd (try_set I w f).
Proof.
  destruct f as [[rs d [|]] evs]; run_accessor; [split; reflexivity|].
  rewrite std_get_assign_twice. split; reflexivity.
Qed.

(** X3.  [set] on two different positions can be done in either order. *)
Theorem set_commutes f I J (v : tuple_element I Rs) (w : tuple_element J Rs) :
  I <> J ->
  snd (set J w (snd (set I v f))) = snd (set I v (snd (set J w f))).
Proof.
  intros HIJ. destruct f as [[rs d [|]] evs]; run_accessor; [reflexivity|].
  now rewrite std_get_assign_swap.
Qed.

(** X4.  [try_set] and [try_get] are the non-throwing counterparts of
    [set] and [get]: in every state [try_set] leaves the guard as [set]
    does and returns 0 exactly when [set] returns and 1 exactly when it
    throws; [try_get] gives the value [get] returns, and [std::nullopt]
    exactly when [get] throws; neither accessor changes anything. *)
Theorem try_counterparts f I (v : tuple_element I Rs) :
  snd (try_set I v f) = snd (set I v f) /\
  fst (try_set I v f) =
    match fst (set I v f) with
    | Return _ => Return 0%Z
    | Throw _ => Return 1%Z
    end /\
  fst (try_get I f) =
    match fst (get I f) with
    | Return x => Return (Some x)
    | Throw _ => Return None
    end /\
  snd (try_get I f) = f /\
  snd (get I f) = f.
Proof. destruct f as [[rs d [|]] evs]; repeat split. Qed.

(** X5.  Whatever state a guard is in, after [release] it is released:
    it converts to [false], [try_get] gives [std::nullopt], [get] and
    [steal] throw.  The same holds after [steal], whether it returned the
    resources or threw. *)
Theorem inert_after_release_or_steal f I :
  (fst (operator_bool (snd (release f))) = Return false /\
   fst (try_get I (snd (release f))) = Return None /\
   fst (get I (snd (release f))) = Throw (logic_error "Resource released") /\
   fst (steal (snd (release f))) = Throw (logic_error "Already released")) /\
  (fst (operator_bool (snd (steal f))) = Return false /\
   fst (try_get I (snd (steal f))) = Return None /\
   fst (get I (snd (steal f))) = Throw (logic_error "Resource released") /\
   fst (steal (snd (steal f))) = Throw (logic_error "Already released") /\
   release (snd (steal f)) = (Return tt, snd (steal f))).
Proof.
  destruct f as [[rs d [|]] evs]; unfold release.
  - repeat split.
  - rewrite cleanup_not_released. repeat split.
Qed.

Lemma all_valid_no_pointer (ts : list rtype) (rs : tuple ts) :
  forallb (fun t => negb (is_raw_pointer t)) ts = true -> all_valid rs = true.
Proof.
  induction ts as [|t ts IH]; simpl; intros H; [reflexivity|].
  apply andb_true_iff in H as [Ht Hts]. destruct rs as [r rs']. simpl.
  rewrite (IH rs' Hts), andb_true_r. now destruct t.
Qed.

(** X6.  When no resource type is a raw pointer, only the primary
    [ValidityCheck] template is used, and the conversion to [bool] is just
    "not released": an empty [shared_ptr] or a negative descriptor does not
    make the guard convert to [false]. *)
Theorem operator_bool_without_pointers f :
  forallb (fun t => negb (is_raw_pointer t)) Rs = true ->
  operator_bool f = (Return (negb (m_released (this f))), f).
Proof.
  intros H. destruct f as [[rs d r] evs]. run_accessor.
  now rewrite (all_valid_no_pointer Rs rs H), andb_true_r.
Qed.

(** X7.  A guard that converts to [true] can be used: [get], [set] and
    [steal] do not throw, [try_get] gives a value and [try_set] returns
    0. *)
Theorem operator_bool_true_usable f I (v : tuple_element I Rs) :
  fst (operator_bool f) = Return true ->
  fst (get I f) = Return (std_get I (m_resources (this f))) /\
  fst (try_get I f) = Return (Some (std_get I (m_resources (this f)))) /\
  fst (set I v f) = Return tt /\
  fst (try_set I v f) = Return 0%Z /\
  fst (steal f) = Return (m_resources (this f)).
Proof.
  destruct f as [[rs d [|]] evs]; run_accessor; [discriminate|].
  intros _. repeat split.
Qed.

End Accessors.

Lemma get_after_set_witness :
  let f : Frame [TPtr; TInt] := mkFrame pair3 [] in
  1 < length [TPtr; TInt] /\
  m_released (this f) = false /\
  fst (get 1 (snd (@set [TPtr; TInt] 1 7%Z f))) = Return 7%Z /\
  fst (try_get 1 (snd (@set [TPtr; TInt] 1 7%Z f))) = Return (Some 7%Z) /\
  fst (get 1 (snd (@try_set [TPtr; TInt] 1 7%Z f))) = Return 7%Z /\
  fst (try_get 1 (snd (@try_set [TPtr; TInt] 1 7%Z f))) = Return (Some 7%Z).
Proof.
  split; [simpl; lia|]. split; [reflexivity|].
  apply (@get_after_set [TPtr; TInt] (mkFrame pair3 []) 1 7%Z);
    [simpl; lia | reflexivity].
Defined.

Lemma set_commutes_witness :
  let f : Frame [TPtr; TInt] := mkFrame pair3 [] in
  0 <> 1 /\
  snd (@set [TPtr; TInt] 1 7%Z (snd (@set [TPtr; TInt] 0 (Ptr 9) f))) =
  snd (@set [TPtr; TInt] 0 (Ptr 9) (snd (@set [TPtr; TInt] 1 7%Z f))).
Proof.
  split; [lia|].
  apply (@set_commutes [TPtr; TInt] (mkFrame pair3 []) 0 1 (Ptr 9) 7%Z). lia.
Defined.

Lemma operator_bool_without_pointers_witness :
  let f : Frame [TShared; TInt] :=
    mkFrame (construct (quiet_deleter [TShared; TInt])
               (Shared nullptr, ((-1)%Z, tt))) [] in
  forallb (fun t => negb (is_raw_pointer t)) [TShared; TInt] = true /\
  operator_bool f = (Return true, f).
Proof.
  split; [reflexivity|].
  apply (@operator_bool_without_pointers [TShared; TInt]
           (mkFrame (construct (quiet_deleter [TShared; TInt])
                       (Shared nullptr, ((-1)%Z, tt))) [])).
  reflexivity.
Defined.

Lemma operator_bool_true_usable_witness :
  let f : Frame [TPtr; TInt] := mkFrame pair3 [] in
  fst (operator_bool f) = Return true /\
  fst (get 1 f) = Return 3%Z /\
  fst (try_get 1 f) = Return (Some 3%Z) /\
  fst (@set [TPtr; TInt] 1 7%Z f) = Return tt /\
  fst (@try_set [TPtr; TInt] 1 7%Z f) = Return 0%Z /\
  fst (steal f) = Return (Ptr 1, (3%Z, tt)).
Proof.
  split; [reflexivity|].
  apply (@operator_bool_true_usable [TPtr; TInt] (mkFrame pair3 []) 1 7%Z).
  reflexivity.
Defined.

(** * Further properties of programs *)

Section Ownership.

Context {Rs : list rtype}.
Implicit Types (rs : tuple Rs) (d : Deleter Rs) (evs : list (Event Rs)).
Implicit Types (g o : ScopedLocalRef Rs) (σ : Machine Rs) (a b : addr).
Implicit Types (h : list (option (ScopedLocalRef Rs))).
Implicit Types (tr : list (addr * Event Rs)).

Lemma object_lookup σ a g : object σ a = Some g -> heap σ !! a = Some (Some g).
Proof.
  unfold object. destruct (heap σ !! a) as [[g'|]|]; try discriminate.
  now intros [= ->].
Qed.

Lemma pending_insert_nat h (b : nat) (x y : option (ScopedLocalRef Rs)) :
  h !! b = Some x ->
  pending (<[b := y]> h) + slot_debt x = pending h + slot_debt y.
Proof.
  intros Hb. pose proof (lookup_lt_Some _ _ _ Hb) as Hlt.
  rewrite (insert_take_drop h b y Hlt).
  rewrite <- (take_drop_middle h b x Hb) at 3.
  unfold pending. rewrite !sum_list_with_app. simpl. lia.
Qed.

Lemma pending_insert h b (x y : option (ScopedLocalRef Rs)) :
  h !! b = Some x ->
  pending (<[b := y]> h) + slot_debt x = pending h + slot_debt y.
Proof. exact (pending_insert_nat h b x y). Qed.

Lemma pending_singleton (x : option (ScopedLocalRef Rs)) :
  pending [x] = slot_debt x.
Proof. unfold pending. simpl. lia. Qed.

Lemma pending_app h h' : pending (h ++ h') = pending h + pending h'.
Proof. apply sum_list_with_app. Qed.

Lemma total_invocations_app tr tr' :
  total_invocations (tr ++ tr') = total_invocations tr + total_invocations tr'.
Proof. unfold total_invocations. now rewrite List.filter_app, length_app. Qed.

Lemma total_invocations_map a evs :
  total_invocations (map (pair a) evs) = length (calls evs).
Proof.
  unfold total_invocations.
  induction evs as [|[d args|line] evs IH]; simpl; [reflexivity| |exact IH].
  now rewrite IH.
Qed.

Lemma cleanup_eq g evs :
  cleanup (mkFrame g evs) =
  (Return tt,
   mkFrame (if m_released g then g
            else mkScopedLocalRef (tuple_value_init Rs) (m_deleter g) true)
           (evs ++ cleanup_of g)).
Proof.
  destruct g as [rs d [|]]; unfold cleanup_of; simpl m_released; cbv iota.
  - rewrite cleanup_released. now rewrite app_nil_r.
  - apply cleanup_not_released.
Qed.

Lemma calls_cleanup_of g : length (calls (cleanup_of g)) = debt g.
Proof.
  unfold cleanup_of, debt. destruct (m_released g); [reflexivity|].
  now rewrite calls_cleanup_events.
Qed.

(** The successor state of each operation, written out. *)
Lemma release_step σ a g :
  object σ a = Some g ->
  step (OpRelease a) σ =
  Some (mkMachine
          (<[a := Some (if m_released g then g
                        else mkScopedLocalRef (tuple_value_init Rs) (m_deleter g) true)]>
             (heap σ))
          (trace σ ++ map (pair a) (cleanup_of g))).
Proof.
  intros Hg. simpl. rewrite (call_eq _ _ _ _ Hg). unfold release.
  rewrite cleanup_eq. reflexivity.
Qed.

Lemma destroy_step σ a g :
  object σ a = Some g ->
  destroy a σ =
  Some (mkMachine (<[a := None]> (heap σ))
          (trace σ ++ map (pair a) (cleanup_of g))).
Proof.
  intros Hg. unfold destroy. rewrite (call_eq _ _ _ _ Hg). unfold destructor.
  rewrite cleanup_eq. cbn [mbind option_bind fst snd heap trace this events app].
  now rewrite list_insert_insert_eq.
Qed.

Lemma move_constructor_step σ a g :
  object σ a = Some g ->
  move_constructor a σ =
  Some (mkMachine
          (<[a := Some (mkScopedLocalRef
                          (tuple_moved_from (m_resources g)) (m_deleter g) true)]>
             (heap σ) ++ [Some g])
          (trace σ)).
Proof.
  intros Hg. unfold move_constructor. rewrite Hg. now destruct g.
Qed.

Lemma move_assignment_step σ dst src gd gs :
  object σ dst = Some gd ->
  object σ src = Some gs ->
  dst <> src ->
  move_assignment dst src σ =
  Some (mkMachine
          (<[src := Some (mkScopedLocalRef
                            (tuple_moved_from (m_resources gs)) (m_deleter gs) true)]>
             (<[dst := Some gs]> (heap σ)))
          (trace σ ++ map (pair dst) (cleanup_of gd))).
Proof.
  intros Hd Hs Hne. unfold move_assignment. rewrite Hd, Hs.
  cbn [mbind option_bind].
  destruct (decide (dst ≠ src)) as [_|Hc]; [|contradiction].
  rewrite (call_eq _ _ _ _ Hd), move_assign_from_eq.
  cbn [mbind option_bind fst snd heap trace this events].
  rewrite release_events. now destruct gs.
Qed.

Lemma call_inv {A : Type} (m : M Rs A) σ σ' b :
  snd <$> call b m σ = Some σ' ->
  exists g,
    object σ b = Some g /\
    σ' = mkMachine (<[b := Some (this (snd (m (mkFrame g []))))]> (heap σ))
           (trace σ ++ map (pair b) (events (snd (m (mkFrame g []))))).
Proof.
  intros H. destruct (object σ b) as [g|] eqn:Hg.
  - rewrite (call_eq _ _ _ _ Hg) in H. injection H as <-. now exists g.
  - unfold call in H. rewrite Hg in H. discriminate.
Qed.

(** The member functions other than [cleanup] produce no event. *)
Lemma accessor_events g I (v : tuple_element I Rs) :
  events (snd (get I (mkFrame g []))) = [] /\
  events (snd (try_get I (mkFrame g []))) = [] /\
  events (snd (set I v (mkFrame g []))) = [] /\
  events (snd (try_set I v (mkFrame g []))) = [] /\
  events (snd (operator_bool (mkFrame g []))) = [] /\
  events (snd (steal (mkFrame g []))) = [].
Proof. destruct g as [rs d [|]]; repeat split. Qed.

(** They keep the released flag, except [steal], which sets it. *)
Lemma accessor_debt g I (v : tuple_element I Rs) :
  debt (this (snd (get I (mkFrame g [])))) = debt g /\
  debt (this (snd (try_get I (mkFrame g [])))) = debt g /\
  debt (this (snd (set I v (mkFrame g [])))) = debt g /\
  debt (this (snd (try_set I v (mkFrame g [])))) = debt g /\
  debt (this (snd (operator_bool (mkFrame g [])))) = debt g /\
  debt (this (snd (steal (mkFrame g [])))) = 0.
Proof. destruct g as [rs d [|]]; repeat split. Qed.

(** Every event of a program comes from a cleanup: an operation
    either leaves the trace as it is, or it is a [release], a destruction
    or a move assignment and appends the cleanup of one of its operands,
    which was live and not released: the call of the deleter that guard
    held, on the resources it held, and the [std::cerr] line if that call
    threw. *)
Lemma step_trace (op : Op Rs) σ σ' :
  step op σ = Some σ' ->
  trace σ' = trace σ \/
  exists b g,
    runs_cleanup op = true /\
    In b (operands op) /\
    object σ b = Some g /\
    m_released g = false /\
    trace σ' =
      trace σ ++ map (pair b) (cleanup_events (m_deleter g) (m_resources g)).
Proof.
  intros Hstep.
  assert (Hclean : forall b g tr,
             runs_cleanup op = true -> In b (operands op) ->
             object σ b = Some g ->
             tr = trace σ ++ map (pair b) (cleanup_of g) ->
             tr = trace σ \/
             exists b g,
               runs_cleanup op = true /\ In b (operands op) /\
               object σ b = Some g /\ m_released g = false /\
               tr = trace σ ++
                    map (pair b) (cleanup_events (m_deleter g) (m_resources g))).
  { intros b g tr Hop Hb Hg ->. unfold cleanup_of.
    destruct (m_released g) eqn:Hrel.
    - left. simpl. now rewrite app_nil_r.
    - right. now exists b, g. }
  destruct op as [d args|other|dst other|b i|b i|b i v|b i v|b|b|b|b];
    cbn [step] in Hstep.
  - injection Hstep as <-. now left.
  - unfold move_constructor in Hstep.
    destruct (object σ other) as [o|]; [|discriminate].
    injection Hstep as <-. now left.
  - destruct (object σ dst) as [gd|] eqn:Hd;
      [|unfold move_assignment in Hstep; rewrite Hd in Hstep; discriminate].
    destruct (object σ other) as [o|] eqn:Ho;
      [|unfold move_assignment in Hstep; rewrite Hd, Ho in Hstep; discriminate].
    destruct (decide (dst = other)) as [->|Hne].
    + unfold move_assignment in Hstep. rewrite Hd in Hstep.
      cbn [mbind option_bind] in Hstep.
      destruct (decide (other ≠ other)) as [Hc|_]; [contradiction|].
      injection Hstep as <-. now left.
    + rewrite (move_assignment_step σ dst other gd o Hd Ho Hne) in Hstep.
      injection Hstep as <-.
      apply (Hclean dst gd); [reflexivity | now left | exact Hd | reflexivity].
  - apply call_inv in Hstep as (g & _ & ->). left. cbn [trace].
    rewrite (proj1 (accessor_events g i (std_get i (m_resources g)))).
    apply app_nil_r.
  - apply call_inv in Hstep as (g & _ & ->). left. cbn [trace].
    rewrite (proj1 (proj2 (accessor_events g i (std_get i (m_resources g))))).
    apply app_nil_r.
  - apply call_inv in Hstep as (g & _ & ->). left. cbn [trace].
    destruct (accessor_events g i v) as (_ & _ & -> & _). apply app_nil_r.
  - apply call_inv in Hstep as (g & _ & ->). left. cbn [trace].
    destruct (accessor_events g i v) as (_ & _ & _ & -> & _). apply app_nil_r.
  - apply call_inv in Hstep as (g & _ & ->). left. cbn [trace].
    destruct (accessor_events g 0 (std_get 0 (m_resources g)))
      as (_ & _ & _ & _ & -> & _).
    apply app_nil_r.
  - destruct (object σ b) as [g|] eqn:Hg;
      [|apply call_inv in Hstep as (g & Hg' & _); congruence].
    change (step (OpRelease b) σ = Some σ') in Hstep.
    rewrite (release_step σ b g Hg) in Hstep. injection Hstep as <-.
    apply (Hclean b g); [reflexivity | now left | exact Hg | reflexivity].
  - apply call_inv in Hstep as (g & _ & ->). left. cbn [trace].
    destruct (accessor_events g 0 (std_get 0 (m_resources g)))
      as (_ & _ & _ & _ & _ & ->).
    apply app_nil_r.
  - destruct (object σ b) as [g|] eqn:Hg;
      [|unfold destroy, call in Hstep; rewrite Hg in Hstep; discriminate].
    rewrite (destroy_step σ b g Hg) in Hstep. injection Hstep as <-.
    apply (Hclean b g); [reflexivity | now left | exact Hg | reflexivity].
Qed.

Lemma cerr_lines_app tr tr' :
  cerr_lines (tr ++ tr') = cerr_lines tr + cerr_lines tr'.
Proof. unfold cerr_lines. now rewrite List.filter_app, length_app. Qed.

Lemma failed_invocations_app tr tr' :
  failed_invocations (tr ++ tr') = failed_invocations tr + failed_invocations tr'.
Proof. unfold failed_invocations. now rewrite List.filter_app, length_app. Qed.

Lemma cleanup_events_logged b d rs :
  cerr_lines (map (pair b) (cleanup_events d rs)) =
  failed_invocations (map (pair b) (cleanup_events d rs)).
Proof.
  unfold cerr_lines, failed_invocations, cleanup_events. simpl.
  destruct (d rs); reflexivity.
Qed.

(** X8.  Only [release], destruction and move assignment can call a
    deleter or write to [std::cerr]: construction, move construction,
    [get], [try_get], [set], [try_set], the conversion to [bool] and
    [steal] leave the trace of the program as it is. *)
Theorem only_cleanup_operations_emit (op : Op Rs) σ σ' :
  runs_cleanup op = false ->
  step op σ = Some σ' ->
  trace σ' = trace σ.
Proof.
  intros Hop Hstep.
  destruct (step_trace op σ σ' Hstep) as [H|(b & g & Hc & _)]; [exact H|].
  congruence.
Qed.

Lemma run_cerr (ops : list (Op Rs)) σ σ' :
  run ops σ = Some σ' ->
  cerr_lines (trace σ') + failed_invocations (trace σ) =
  failed_invocations (trace σ') + cerr_lines (trace σ).
Proof.
  revert σ. induction ops as [|op ops IH]; intros σ Hrun; simpl in Hrun.
  - injection Hrun as <-. lia.
  - destruct (step op σ) as [σ1|] eqn:E; [|discriminate]. simpl in Hrun.
    specialize (IH σ1 Hrun).
    destruct (step_trace op σ σ1 E) as [H|(b & g & _ & _ & _ & _ & H)];
      rewrite H in IH; [exact IH|].
    rewrite cerr_lines_app, failed_invocations_app, cleanup_events_logged in IH.
    lia.
Qed.

(** X9.  Over a whole program the lines written to [std::cerr] are exactly
    as many as the deleter calls that threw; a program whose deleters
    never throw writes nothing. *)
Theorem cerr_lines_count_failures (ops : list (Op Rs)) σ :
  run ops (initial Rs) = Some σ ->
  cerr_lines (trace σ) = failed_invocations (trace σ).
Proof.
  intros Hrun. pose proof (run_cerr ops _ _ Hrun) as H.
  change (failed_invocations (trace (initial Rs))) with 0 in H.
  change (cerr_lines (trace (initial Rs))) with 0 in H. lia.
Qed.

Lemma step_account (op : Op Rs) σ σ' :
  step op σ = Some σ' ->
  total_invocations (trace σ') + pending (heap σ') <=
    total_invocations (trace σ) + pending (heap σ) +
    (if is_construct op then 1 else 0) /\
  (is_steal op = false ->
   total_invocations (trace σ') + pending (heap σ') =
     total_invocations (trace σ) + pending (heap σ) +
     (if is_construct op then 1 else 0)).
Proof.
  intros Hstep.
  assert (Hcall : forall (A : Type) (m : M Rs A) b,
             snd <$> call b m σ = Some σ' ->
             exists g,
               total_invocations (trace σ') + pending (heap σ') + debt g =
               total_invocations (trace σ) + pending (heap σ) +
               length (calls (events (snd (m (mkFrame g []))))) +
               debt (this (snd (m (mkFrame g []))))).
  { intros A m b Hc. apply call_inv in Hc as (g & Hg & ->). exists g.
    cbn [trace heap]. rewrite total_invocations_app, total_invocations_map.
    pose proof (pending_insert (heap σ) b (Some g)
                  (Some (this (snd (m (mkFrame g [])))))
                  (object_lookup _ _ _ Hg)) as Hp.
    simpl slot_debt in Hp. lia. }
  destruct op as [d args|other|dst other|b i|b i|b i v|b i v|b|b|b|b];
    cbn [step is_construct is_steal] in *.
  - injection Hstep as <-. unfold new_object. cbn [heap trace].
    rewrite pending_app, pending_singleton. cbn [slot_debt construct debt m_released].
    lia.
  - destruct (object σ other) as [o|] eqn:Ho;
      [|unfold move_constructor in Hstep; rewrite Ho in Hstep; discriminate].
    rewrite (move_constructor_step σ other o Ho) in Hstep.
    injection Hstep as <-. cbn [heap trace]. rewrite pending_app.
    pose proof (pending_insert (heap σ) other (Some o)
                  (Some (mkScopedLocalRef (tuple_moved_from (m_resources o))
                           (m_deleter o) true))
                  (object_lookup _ _ _ Ho)) as Hp.
    rewrite pending_singleton. cbn [slot_debt debt m_released] in Hp |- *. lia.
  - destruct (object σ dst) as [gd|] eqn:Hd;
      [|unfold move_assignment in Hstep; rewrite Hd in Hstep; discriminate].
    destruct (object σ other) as [o|] eqn:Ho;
      [|unfold move_assignment in Hstep; rewrite Hd, Ho in Hstep; discriminate].
    destruct (decide (dst = other)) as [->|Hne].
    + unfold move_assignment in Hstep. rewrite Hd in Hstep.
      cbn [mbind option_bind] in Hstep.
      destruct (decide (other ≠ other)) as [Hc|_]; [contradiction|].
      injection Hstep as <-. lia.
    + rewrite (move_assignment_step σ dst other gd o Hd Ho Hne) in Hstep.
      injection Hstep as <-. cbn [heap trace].
      rewrite total_invocations_app, total_invocations_map, calls_cleanup_of.
      pose proof (pending_insert (heap σ) dst (Some gd) (Some o)
                    (object_lookup _ _ _ Hd)) as Hp1.
      assert (Hother : <[dst := Some o]> (heap σ) !! other = Some (Some o)).
      { rewrite list_lookup_insert_ne by exact Hne.
        exact (object_lookup _ _ _ Ho). }
      pose proof (pending_insert (<[dst := Some o]> (heap σ)) other (Some o)
                    (Some (mkScopedLocalRef (tuple_moved_from (m_resources o))
                             (m_deleter o) true))
                    Hother) as Hp2.
      cbn [slot_debt debt m_released] in Hp1, Hp2. lia.
  - destruct (Hcall _ _ _ Hstep) as (g & H).
    destruct (accessor_events g i (std_get i (m_resources g))) as (He & _).
    destruct (accessor_debt g i (std_get i (m_resources g))) as (Hd & _).
    rewrite He, Hd in H. simpl in H. lia.
  - destruct (Hcall _ _ _ Hstep) as (g & H).
    destruct (accessor_events g i (std_get i (m_resources g))) as (_ & He & _).
    destruct (accessor_debt g i (std_get i (m_resources g))) as (_ & Hd & _).
    rewrite He, Hd in H. simpl in H. lia.
  - destruct (Hcall _ _ _ Hstep) as (g & H).
    destruct (accessor_events g i v) as (_ & _ & He & _).
    destruct (accessor_debt g i v) as (_ & _ & Hd & _).
    rewrite He, Hd in H. simpl in H. lia.
  - destruct (Hcall _ _ _ Hstep) as (g & H).
    destruct (accessor_events g i v) as (_ & _ & _ & He & _).
    destruct (accessor_debt g i v) as (_ & _ & _ & Hd & _).
    rewrite He, Hd in H. simpl in H. lia.
  - destruct (Hcall _ _ _ Hstep) as (g & H).
    destruct (accessor_events g 0 (std_get 0 (m_resources g)))
      as (_ & _ & _ & _ & He & _).
    destruct (accessor_debt g 0 (std_get 0 (m_resources g)))
      as (_ & _ & _ & _ & Hd & _).
    rewrite He, Hd in H. simpl in H. lia.
  - destruct (Hcall _ _ _ Hstep) as (g & H). unfold release in H.
    rewrite cleanup_eq in H. cbn [snd events this app] in H.
    rewrite calls_cleanup_of in H.
    assert (debt (if m_released g then g
                  else mkScopedLocalRef (tuple_value_init Rs) (m_deleter g) true) = 0)
      as Hz by (unfold debt; destruct (m_released g) eqn:E; [now rewrite E|reflexivity]).
    rewrite Hz in H. lia.
  - destruct (Hcall _ _ _ Hstep) as (g & H).
    destruct (accessor_events g 0 (std_get 0 (m_resources g)))
      as (_ & _ & _ & _ & _ & He).
    destruct (accessor_debt g 0 (std_get 0 (m_resources g)))
      as (_ & _ & _ & _ & _ & Hd).
    rewrite He, Hd in H. simpl in H. split; [lia | discriminate].
  - destruct (object σ b) as [g|] eqn:Hg;
      [|unfold destroy, call in Hstep; rewrite Hg in Hstep; discriminate].
    rewrite (destroy_step σ b g Hg) in Hstep. injection Hstep as <-.
    cbn [heap trace].
    rewrite total_invocations_app, total_invocations_map, calls_cleanup_of.
    pose proof (pending_insert (heap σ) b (Some g) None
                  (object_lookup _ _ _ Hg)) as Hp.
    cbn [slot_debt] in Hp. lia.
Qed.

Lemma run_account (ops : list (Op Rs)) σ σ' :
  run ops σ = Some σ' ->
  total_invocations (trace σ') + pending (heap σ') <=
    total_invocations (trace σ) + pending (heap σ) + constructions ops /\
  (forallb (fun op => negb (is_steal op)) ops = true ->
   total_invocations (trace σ') + pending (heap σ') =
     total_invocations (trace σ) + pending (heap σ) + constructions ops).
Proof.
  revert σ. induction ops as [|op ops IH]; intros σ Hrun; simpl in Hrun.
  - injection Hrun as <-. unfold constructions. simpl. lia.
  - destruct (step op σ) as [σ1|] eqn:E; [|discriminate]. simpl in Hrun.
    destruct (IH σ1 Hrun) as [Hle Heq].
    destruct (step_account op σ σ1 E) as [Hle1 Heq1].
    assert (Hc : constructions (op :: ops) =
                 (if is_construct op then 1 else 0) + constructions ops).
    { unfold constructions. simpl. now destruct (is_construct op). }
    rewrite Hc. split; [lia|].
    intros Hs. simpl in Hs. apply andb_true_iff in Hs as [Hs1 Hs2].
    apply negb_true_iff in Hs1. specialize (Heq Hs2). specialize (Heq1 Hs1). lia.
Qed.

(** For deleters that make no call on a guard: the deleter calls made so
    far plus the live guards that are not released never exceed the
    number of constructions, and are equal to it if the program never
    calls [steal]. *)
Lemma cleanups_match_constructions (ops : list (Op Rs)) σ :
  run ops (initial Rs) = Some σ ->
  total_invocations (trace σ) + pending (heap σ) <= constructions ops /\
  (forallb (fun op => negb (is_steal op)) ops = true ->
   total_invocations (trace σ) + pending (heap σ) = constructions ops /\
   (pending (heap σ) = 0 -> total_invocations (trace σ) = constructions ops)).
Proof.
  intros Hrun. destruct (run_account ops _ _ Hrun) as [Hle Heq].
  change (total_invocations (trace (initial Rs))) with 0 in Hle, Heq.
  change (pending (heap (initial Rs))) with 0 in Hle, Heq.
  split; [exact Hle|]. intros Hs. specialize (Heq Hs). split; [exact Heq|]. lia.
Qed.

Lemma run_cons (op : Op Rs) (ops : list (Op Rs)) σ σ1 :
  step op σ = Some σ1 -> run (op :: ops) σ = run ops σ1.
Proof. intros H. simpl. now rewrite H. Qed.

Lemma destroy_object σ σ' a b g :
  object σ b = Some g ->
  destroy b σ = Some σ' ->
  trace σ' = trace σ ++ map (pair b) (cleanup_of g) /\
  length (heap σ') = length (heap σ) /\
  object σ' b = None /\
  (a <> b -> object σ' a = object σ a).
Proof.
  intros Hg Hd. rewrite (destroy_step σ b g Hg) in Hd. injection Hd as <-.
  cbn [heap trace]. split; [reflexivity|]. split; [apply length_insert|].
  split.
  - apply object_insert_eq. exact (object_lt _ _ _ Hg).
  - intros Hab. rewrite (object_insert_ne _ _ (trace σ)) by exact Hab.
    now destruct σ.
Qed.

Lemma destroy_defined σ b g :
  object σ b = Some g -> exists σ', destroy b σ = Some σ'.
Proof. intros Hg. rewrite (destroy_step σ b g Hg). now eexists. Qed.

(** Destroying two live objects, one after the other. *)
Lemma destroy_two σ a b ga gb :
  a <> b ->
  object σ a = Some ga ->
  object σ b = Some gb ->
  exists σ',
    run [OpDestroy a; OpDestroy b] σ = Some σ' /\
    trace σ' =
      trace σ ++ map (pair a) (cleanup_of ga) ++ map (pair b) (cleanup_of gb) /\
    object σ' a = None /\
    object σ' b = None.
Proof.
  intros Hab Ha Hb.
  destruct (destroy_defined σ a ga Ha) as [σ1 H1].
  destruct (destroy_object σ σ1 b a ga Ha H1) as (Ht1 & _ & Ha1 & Hb1).
  assert (Hb1' : object σ1 b = Some gb).
  { rewrite Hb1 by congruence. exact Hb. }
  destruct (destroy_defined σ1 b gb Hb1') as [σ2 H2].
  destruct (destroy_object σ1 σ2 a b gb Hb1' H2) as (Ht2 & _ & Hb2 & Ha2).
  exists σ2. split; [|split; [|split]].
  - rewrite (run_cons (OpDestroy a) _ σ σ1 H1).
    rewrite (run_cons (OpDestroy b) _ σ1 σ2 H2). reflexivity.
  - rewrite Ht2, Ht1. now rewrite <- app_assoc.
  - rewrite Ha2 by exact Hab. exact Ha1.
  - exact Hb2.
Qed.

(** For deleters that make no call on a guard: after move construction,
    destroying both guards, in either order, adds to the trace exactly the
    cleanup the source owed before the move, and it is the new guard that
    performs it. *)
Lemma move_construct_carries_cleanup σ a g :
  object σ a = Some g ->
  let n := length (heap σ) in
  (exists σ',
      run [OpMoveConstruct a; OpDestroy a; OpDestroy n] σ = Some σ' /\
      trace σ' = trace σ ++ map (pair n) (cleanup_of g) /\
      object σ' a = None /\ object σ' n = None) /\
  (exists σ',
      run [OpMoveConstruct a; OpDestroy n; OpDestroy a] σ = Some σ' /\
      trace σ' = trace σ ++ map (pair n) (cleanup_of g) /\
      object σ' a = None /\ object σ' n = None).
Proof.
  intros Hg n. pose proof (object_lt _ _ _ Hg) as Ha.
  set (moved := mkScopedLocalRef (tuple_moved_from (m_resources g)) (m_deleter g) true).
  set (σ1 := mkMachine (<[a := Some moved]> (heap σ) ++ [Some g]) (trace σ)).
  assert (H1 : step (OpMoveConstruct a) σ = Some σ1)
    by exact (move_constructor_step σ a g Hg).
  assert (Ha1 : object σ1 a = Some moved).
  { unfold σ1. rewrite (object_app_l _ _ _ (trace σ)) by now rewrite length_insert.
    now apply object_insert_eq. }
  assert (Hn1 : object σ1 n = Some g).
  { unfold σ1, n. rewrite <- (length_insert (heap σ) a (Some moved)).
    apply object_app_new. }
  assert (Han : a <> n) by (unfold n; lia).
  split.
  - destruct (destroy_two σ1 a n moved g Han Ha1 Hn1) as (σ' & Hrun & Ht & Hoa & Hon).
    exists σ'. rewrite (run_cons _ _ σ σ1 H1). repeat split; assumption.
  - destruct (destroy_two σ1 n a g moved (not_eq_sym Han) Hn1 Ha1)
      as (σ' & Hrun & Ht & Hon & Hoa).
    exists σ'. rewrite (run_cons _ _ σ σ1 H1). split; [exact Hrun|].
    split; [|split; assumption].
    rewrite Ht. change (cleanup_of moved) with (@nil (Event Rs)).
    simpl. now rewrite app_nil_r.
Qed.

(** For deleters that make no call on a guard: after
    [dst = std::move(src)] between two different live guards, destroying
    both, in either order, leaves in the trace exactly the cleanup [dst]
    owed before the assignment followed by the cleanup [src] owed, both
    performed by [dst]. *)
Lemma move_assignment_carries_cleanup σ dst src gd gs :
  object σ dst = Some gd ->
  object σ src = Some gs ->
  dst <> src ->
  (exists σ',
      run [OpMoveAssign dst src; OpDestroy dst; OpDestroy src] σ = Some σ' /\
      trace σ' = trace σ ++ map (pair dst) (cleanup_of gd ++ cleanup_of gs) /\
      object σ' dst = None /\ object σ' src = None) /\
  (exists σ',
      run [OpMoveAssign dst src; OpDestroy src; OpDestroy dst] σ = Some σ' /\
      trace σ' = trace σ ++ map (pair dst) (cleanup_of gd ++ cleanup_of gs) /\
      object σ' dst = None /\ object σ' src = None).
Proof.
  intros Hd Hs Hne.
  pose proof (object_lt _ _ _ Hd) as Hdlt. pose proof (object_lt _ _ _ Hs) as Hslt.
  set (moved := mkScopedLocalRef (tuple_moved_from (m_resources gs)) (m_deleter gs) true).
  set (σ1 := mkMachine (<[src := Some moved]> (<[dst := Some gs]> (heap σ)))
               (trace σ ++ map (pair dst) (cleanup_of gd))).
  assert (H1 : step (OpMoveAssign dst src) σ = Some σ1)
    by exact (move_assignment_step σ dst src gd gs Hd Hs Hne).
  assert (Hd1 : object σ1 dst = Some gs).
  { unfold σ1. rewrite (object_insert_ne _ _ (trace σ)) by exact Hne.
    now apply object_insert_eq. }
  assert (Hs1 : object σ1 src = Some moved).
  { unfold σ1. apply object_insert_eq. now rewrite length_insert. }
  split.
  - destruct (destroy_two σ1 dst src gs moved Hne Hd1 Hs1)
      as (σ' & Hrun & Ht & Hod & Hos).
    exists σ'. rewrite (run_cons _ _ σ σ1 H1). split; [exact Hrun|].
    split; [|split; assumption].
    rewrite Ht. change (cleanup_of moved) with (@nil (Event Rs)).
    unfold σ1. cbn [trace]. simpl map at 3.
    now rewrite app_nil_r, <- app_assoc, map_app.
  - destruct (destroy_two σ1 src dst moved gs (not_eq_sym Hne) Hs1 Hd1)
      as (σ' & Hrun & Ht & Hos & Hod).
    exists σ'. rewrite (run_cons _ _ σ σ1 H1). split; [exact Hrun|].
    split; [|split; assumption].
    rewrite Ht. change (cleanup_of moved) with (@nil (Event Rs)).
    unfold σ1. cbn [trace]. simpl map at 2.
    now rewrite app_nil_l, <- app_assoc, map_app.
Qed.

Lemma step_length (op : Op Rs) σ σ' :
  step op σ = Some σ' -> length (heap σ) <= length (heap σ').
Proof.
  intros Hstep.
  destruct op as [d args|other|dst other|b i|b i|b i v|b i v|b|b|b|b];
    cbn [step] in Hstep;
    try (apply call_inv in Hstep as (g & _ & ->); cbn [heap];
         now rewrite length_insert).
  - injection Hstep as <-. cbn [new_object heap]. rewrite length_app. lia.
  - destruct (object σ other) as [o|] eqn:Ho;
      [|unfold move_constructor in Hstep; rewrite Ho in Hstep; discriminate].
    rewrite (move_constructor_step σ other o Ho) in Hstep.
    injection Hstep as <-. cbn [heap]. rewrite length_app, length_insert. lia.
  - destruct (object σ dst) as [gd|] eqn:Hd;
      [|unfold move_assignment in Hstep; rewrite Hd in Hstep; discriminate].
    destruct (object σ other) as [o|] eqn:Ho;
      [|unfold move_assignment in Hstep; rewrite Hd, Ho in Hstep; discriminate].
    destruct (decide (dst = other)) as [->|Hne].
    + unfold move_assignment in Hstep. rewrite Hd in Hstep.
      cbn [mbind option_bind] in Hstep.
      destruct (decide (other ≠ other)) as [Hc|_]; [contradiction|].
      now injection Hstep as <-.
    + rewrite (move_assignment_step σ dst other gd o Hd Ho Hne) in Hstep.
      injection Hstep as <-. cbn [heap]. now rewrite !length_insert.
  - destruct (object σ b) as [g|] eqn:Hg;
      [|unfold destroy, call in Hstep; rewrite Hg in Hstep; discriminate].
    rewrite (destroy_step σ b g Hg) in Hstep. injection Hstep as <-.
    cbn [heap]. now rewrite length_insert.
Qed.

Lemma step_other_object (op : Op Rs) σ σ' a :
  step op σ = Some σ' ->
  a < length (heap σ) ->
  ~ In a (operands op) ->
  object σ' a = object σ a.
Proof.
  intros Hstep Ha Hnot.
  assert (Hσ : forall tr, object (mkMachine (heap σ) tr) a = object σ a)
    by (intros tr; now destruct σ).
  destruct op as [d args|other|dst other|b i|b i|b i v|b i v|b|b|b|b];
    cbn [step operands] in Hstep, Hnot;
    try (apply call_inv in Hstep as (g & _ & ->);
         rewrite (object_insert_ne _ _ (trace σ)) by (intros ->; apply Hnot; now left);
         apply Hσ).
  - injection Hstep as <-. unfold new_object.
    now rewrite (object_app_l _ _ _ (trace σ)).
  - destruct (object σ other) as [o|] eqn:Ho;
      [|unfold move_constructor in Hstep; rewrite Ho in Hstep; discriminate].
    rewrite (move_constructor_step σ other o Ho) in Hstep.
    injection Hstep as <-.
    rewrite (object_app_l _ _ _ (trace σ)) by now rewrite length_insert.
    rewrite (object_insert_ne _ _ (trace σ)) by (intros ->; apply Hnot; now left).
    apply Hσ.
  - destruct (object σ dst) as [gd|] eqn:Hd;
      [|unfold move_assignment in Hstep; rewrite Hd in Hstep; discriminate].
    destruct (object σ other) as [o|] eqn:Ho;
      [|unfold move_assignment in Hstep; rewrite Hd, Ho in Hstep; discriminate].
    destruct (decide (dst = other)) as [->|Hne].
    + unfold move_assignment in Hstep. rewrite Hd in Hstep.
      cbn [mbind option_bind] in Hstep.
      destruct (decide (other ≠ other)) as [Hc|_]; [contradiction|].
      now injection Hstep as <-.
    + rewrite (move_assignment_step σ dst other gd o Hd Ho Hne) in Hstep.
      injection Hstep as <-.
      rewrite (object_insert_ne _ _ (trace σ))
        by (intros ->; apply Hnot; right; now left).
      rewrite (object_insert_ne _ _ (trace σ)) by (intros ->; apply Hnot; now left).
      apply Hσ.
  - destruct (object σ b) as [g|] eqn:Hg;
      [|unfold destroy, call in Hstep; rewrite Hg in Hstep; discriminate].
    rewrite (destroy_step σ b g Hg) in Hstep. injection Hstep as <-.
    rewrite (object_insert_ne _ _ (trace σ)) by (intros ->; apply Hnot; now left).
    apply Hσ.
Qed.


Lemma step_spent (op : Op Rs) σ σ' a :
  assigns_into a op = false ->
  step op σ = Some σ' ->
  spent σ a ->
  spent σ' a /\ invocations a (trace σ') = invocations a (trace σ).
Proof.
  intros Hop Hstep [Ha Hrel]. split.
  - split; [pose proof (step_length op σ σ' Hstep); lia|].
    assert (Hkeep : object σ' a = object σ a -> forall g', object σ' a = Some g' ->
                    m_released g' = true).
    { intros E g' Hg'. apply Hrel. congruence. }
    assert (Hσ : forall tr, object (mkMachine (heap σ) tr) a = object σ a)
      by (intros tr; now destruct σ).
    assert (Hcall : forall (A : Type) (m : M Rs A) b,
               tame m -> snd <$> call b m σ = Some σ' ->
               forall g', object σ' a = Some g' -> m_released g' = true).
    { intros A m b Hm Hc. apply call_inv in Hc as (g & Hg & ->).
      destruct (decide (a = b)) as [->|Hab].
      - rewrite object_insert_eq by exact Ha. intros g' [= <-].
        now apply (Hm g), Hrel.
      - apply Hkeep. rewrite (object_insert_ne _ _ (trace σ)) by exact Hab.
        apply Hσ. }
    destruct op as [d args|other|dst other|b i|b i|b i v|b i v|b|b|b|b];
      cbn [step assigns_into] in Hstep, Hop.
    + apply Hkeep. apply (step_other_object (OpConstruct d args)); auto.
    + destruct (object σ other) as [o|] eqn:Ho;
        [|unfold move_constructor in Hstep; rewrite Ho in Hstep; discriminate].
      destruct (decide (a = other)) as [->|Hne].
      * rewrite (move_constructor_step σ other o Ho) in Hstep.
        injection Hstep as <-.
        rewrite (object_app_l _ _ _ (trace σ)) by now rewrite length_insert.
        rewrite object_insert_eq by exact Ha. now intros g' [= <-].
      * apply Hkeep. apply (step_other_object (OpMoveConstruct other)); auto.
        simpl. intros [->|[]]. contradiction.
    + apply Nat.eqb_neq in Hop.
      destruct (object σ dst) as [gd|] eqn:Hd;
        [|unfold move_assignment in Hstep; rewrite Hd in Hstep; discriminate].
      destruct (object σ other) as [o|] eqn:Ho;
        [|unfold move_assignment in Hstep; rewrite Hd, Ho in Hstep; discriminate].
      destruct (decide (a = other)) as [->|Hne].
      * destruct (decide (dst = other)) as [->|Hdo]; [contradiction|].
        rewrite (move_assignment_step σ dst other gd o Hd Ho Hdo) in Hstep.
        injection Hstep as <-.
        rewrite object_insert_eq by now rewrite length_insert.
        now intros g' [= <-].
      * apply Hkeep. apply (step_other_object (OpMoveAssign dst other)); auto.
        simpl. intros [->|[->|[]]]; contradiction.
    + exact (Hcall _ _ b (tame_get i) Hstep).
    + exact (Hcall _ _ b (tame_try_get i) Hstep).
    + exact (Hcall _ _ b (tame_set i v) Hstep).
    + exact (Hcall _ _ b (tame_try_set i v) Hstep).
    + exact (Hcall _ _ b tame_operator_bool Hstep).
    + exact (Hcall _ _ b tame_cleanup Hstep).
    + exact (Hcall _ _ b tame_steal Hstep).
    + destruct (decide (a = b)) as [->|Hne].
      * destruct (object σ b) as [g|] eqn:Hg;
          [|unfold destroy, call in Hstep; rewrite Hg in Hstep; discriminate].
        rewrite (destroy_step σ b g Hg) in Hstep. injection Hstep as <-.
        rewrite object_insert_eq by exact Ha. discriminate.
      * apply Hkeep. apply (step_other_object (OpDestroy b)); auto.
        simpl. intros [->|[]]. contradiction.
  - destruct (step_trace op σ σ' Hstep) as [->|(b & g & _ & _ & Hg & Hlive & ->)];
      [reflexivity|].
    rewrite invocations_app, invocations_other; [lia|].
    intros ->. specialize (Hrel g Hg). congruence.
Qed.

(** X14.  Released is final: once a guard is released (by [release],
    [steal], a move out of it, or because it was built from a released
    guard), no sequence of operations other than a move assignment into it
    makes it call a deleter again, and it stays released until it is
    destroyed. *)
Theorem released_is_final (ops : list (Op Rs)) σ σ' a g :
  run ops σ = Some σ' ->
  forallb (fun op => negb (assigns_into a op)) ops = true ->
  object σ a = Some g ->
  m_released g = true ->
  invocations a (trace σ') = invocations a (trace σ) /\
  (object σ' a = None \/
   exists g', object σ' a = Some g' /\ m_released g' = true).
Proof.
  intros Hrun Hops Hg Hrel.
  assert (Hsp : spent σ a).
  { split; [exact (object_lt _ _ _ Hg)|]. intros g0 Hg0. congruence. }
  clear Hg Hrel g.
  assert (H : spent σ' a /\ invocations a (trace σ') = invocations a (trace σ)).
  { revert σ Hrun Hsp. induction ops as [|op ops IH]; intros σ Hrun Hsp;
      simpl in Hrun, Hops.
    - injection Hrun as <-. now split.
    - apply andb_true_iff in Hops as [Hop Hops]. apply negb_true_iff in Hop.
      destruct (step op σ) as [σ1|] eqn:E; [|discriminate]. simpl in Hrun.
      destruct (step_spent op σ σ1 a Hop E Hsp) as [Hsp1 Hinv1].
      destruct (IH Hops σ1 Hrun Hsp1) as [Hsp' Hinv']. split; [exact Hsp'|].
      congruence. }
  destruct H as [[_ Hrel'] Hinv]. split; [exact Hinv|].
  destruct (object σ' a) as [g'|] eqn:E; [right|now left].
  exists g'. split; [reflexivity|]. now apply Hrel'.
Qed.

(** X15.  [make_scoped_ref(deleter, args...)] gives a guard that is not
    released and holds the arguments in the order given: every [get<I>]
    returns the [I]-th argument, the guard converts to [true] exactly when
    all the arguments are valid, and putting it into a program calls
    nothing. *)
Theorem make_scoped_ref_holds_arguments d rs σ I :
  let g := make_scoped_ref d rs in
  let σ' := new_object g σ in
  step (OpConstruct d rs) σ = Some σ' /\
  object σ' (length (heap σ)) = Some g /\
  trace σ' = trace σ /\
  fst (get I (mkFrame g [])) = Return (std_get I rs) /\
  fst (operator_bool (mkFrame g [])) = Return (all_valid rs) /\
  fst (steal (mkFrame g [])) = Return rs.
Proof.
  simpl. repeat split. apply object_app_new.
Qed.

End Ownership.

Lemma only_cleanup_operations_emit_witness :
  let σ : Machine [TInt] := new_object fd5 (initial [TInt]) in
  let σ' : Machine [TInt] :=
    mkMachine [Some (@mkScopedLocalRef [TInt] (5%Z, tt) close_fn true)] [] in
  runs_cleanup (@OpSteal [TInt] 0) = false /\
  step (OpSteal 0) σ = Some σ' /\
  trace σ' = trace σ.
Proof.
  split; [reflexivity|]. split; [reflexivity|].
  apply (@only_cleanup_operations_emit [TInt] (OpSteal 0)
           (new_object fd5 (initial [TInt]))
           (mkMachine [Some (@mkScopedLocalRef [TInt] (5%Z, tt) close_fn true)] []));
    reflexivity.
Defined.

Lemma cerr_lines_count_failures_witness :
  let ops : list (Op [TInt]) :=
    [OpConstruct (failing_deleter [TInt]) (5%Z, tt);
     OpConstruct close_fn (6%Z, tt);
     OpRelease 0; OpDestroy 1; OpDestroy 0] in
  let σ : Machine [TInt] :=
    mkMachine [None; None]
      [(0, Invoke (failing_deleter [TInt]) (5%Z, tt));
       (0, Cerr "Cleanup error - potential leak");
       (1, Invoke close_fn (6%Z, tt))] in
  run ops (initial [TInt]) = Some σ /\
  cerr_lines (trace σ) = failed_invocations (trace σ).
Proof.
  split; [reflexivity|].
  apply (@cerr_lines_count_failures [TInt]
           [OpConstruct (failing_deleter [TInt]) (5%Z, tt);
            OpConstruct close_fn (6%Z, tt);
            OpRelease 0; OpDestroy 1; OpDestroy 0]).
  reflexivity.
Defined.


Lemma released_is_final_witness :
  let g : ScopedLocalRef [TInt] := @mkScopedLocalRef [TInt] (0%Z, tt) close_fn true in
  let σ : Machine [TInt] := mkMachine [Some g] [(0, Invoke close_fn (5%Z, tt))] in
  let ops : list (Op [TInt]) :=
    [OpRelease 0; @OpTrySet [TInt] 0 0 7%Z; OpSteal 0; OpMoveConstruct 0;
     OpMoveAssign 1 0; OpRelease 0] in
  let σ' : Machine [TInt] := mkMachine [Some g; Some g] (trace σ) in
  run ops σ = Some σ' /\
  forallb (fun op => negb (assigns_into 0 op)) ops = true /\
  object σ 0 = Some g /\
  m_released g = true /\
  invocations 0 (trace σ') = invocations 0 (trace σ) /\
  (object σ' 0 = None \/
   exists g', object σ' 0 = Some g' /\ m_released g' = true).
Proof.
  split; [reflexivity|]. split; [reflexivity|]. split; [reflexivity|].
  split; [reflexivity|].
  apply (@released_is_final [TInt]
           [OpRelease 0; @OpTrySet [TInt] 0 0 7%Z; OpSteal 0; OpMoveConstruct 0;
            OpMoveAssign 1 0; OpRelease 0]
           (mkMachine [Some (@mkScopedLocalRef [TInt] (0%Z, tt) close_fn true)]
              [(0, Invoke close_fn (5%Z, tt))])
           (mkMachine [Some (@mkScopedLocalRef [TInt] (0%Z, tt) close_fn true);
                       Some (@mkScopedLocalRef [TInt] (0%Z, tt) close_fn true)]
              [(0, Invoke close_fn (5%Z, tt))])
           0 (@mkScopedLocalRef [TInt] (0%Z, tt) close_fn true));
    reflexivity.
Defined.

(** * Deleters that call back into their guard *)

Section Reentrant.

Context {Rs : list rtype}.
Implicit Types (rs : tuple Rs) (d : Deleter Rs) (evs : list (Event Rs)).
Implicit Types (g o : ScopedLocalRef Rs) (f : Frame Rs) (σ : Machine Rs).
Implicit Types (a b : addr) (scripts : list (Script Rs)) (script : Script Rs).
Implicit Types (c : Callback Rs).

(** With no script the re-entrant definitions are the plain ones. *)
Lemma cleanup_reentrant_nil : @cleanup_reentrant Rs [] = cleanup.
Proof. reflexivity. Qed.

Lemma step_reentrant_nil (op : Op Rs) σ : step_reentrant [] op σ = step op σ.
Proof. destruct op; reflexivity. Qed.

Lemma run_reentrant_nil (ops : list (Op Rs)) σ :
  run_reentrant (map (pair []) ops) σ = run ops σ.
Proof.
  revert σ. induction ops as [|op ops IH]; intros σ; simpl; [reflexivity|].
  rewrite step_reentrant_nil. destruct (step op σ) as [σ1|]; simpl; [apply IH|].
  reflexivity.
Qed.

(** On a released guard [cleanup()] does nothing, whatever the deleter. *)
Lemma cleanup_reentrant_released scripts f :
  m_released (this f) = true -> cleanup_reentrant scripts f = (Return tt, f).
Proof.
  destruct f as [[rs d r] evs]. simpl. intros ->. now destruct scripts.
Qed.

(** What follows the [try] block of [cleanup()], for any deleter call. *)
Lemma cleanup_tail (body : M Rs unit) f :
  (try_catch_all body (cerr_endl "Cleanup error - potential leak");;
   assign_resources (tuple_value_init Rs);;
   assign_released true) f =
  (Return tt,
   mkFrame (mkScopedLocalRef (tuple_value_init Rs)
              (m_deleter (this (snd (body f)))) true)
     (events (snd (body f)) ++
      match fst (body f) with
      | Return _ => []
      | Throw _ => [Cerr "Cleanup error - potential leak"]
      end)).
Proof.
  unfold try_catch_all, cerr_endl, emit, assign_resources, assign_released,
    mbind, M_bind.
  destruct (body f) as [[[]|e] f1]; simpl; [now rewrite app_nil_r|reflexivity].
Qed.

Lemma cleanup_reentrant_unfold scripts f :
  m_released (this f) = false ->
  cleanup_reentrant scripts f =
  (try_catch_all
     match scripts with
     | [] => std_apply_deleter
     | script :: nested =>
         std_apply_reentrant (cleanup_reentrant nested) script
     end
     (cerr_endl "Cleanup error - potential leak");;
   assign_resources (tuple_value_init Rs);;
   assign_released true) f.
Proof.
  destruct f as [[rs d r] evs]. simpl. intros ->. now destruct scripts.
Qed.

(** [cleanup()] always returns, and leaves the guard released. *)
Lemma cleanup_reentrant_returns scripts f :
  fst (cleanup_reentrant scripts f) = Return tt /\
  m_released (this (snd (cleanup_reentrant scripts f))) = true.
Proof.
  destruct (m_released (this f)) eqn:E.
  - rewrite (cleanup_reentrant_released scripts f E). now split.
  - rewrite (cleanup_reentrant_unfold scripts f E), cleanup_tail. now split.
Qed.

Lemma silent_ret : silent (mret tt : M Rs unit).
Proof. intros f. now split. Qed.

Lemma silent_bind (m k : M Rs unit) : silent m -> silent k -> silent (m;; k).
Proof.
  intros Hm Hk f. unfold mbind, M_bind. destruct (Hm f) as [He Hd].
  destruct (m f) as [[[]|e] f1]; simpl in *; [|now split].
  destruct (Hk f1) as [He1 Hd1]. split; congruence.
Qed.

Lemma silent_catch (m h : M Rs unit) :
  silent m -> silent h -> silent (try_catch_all m h).
Proof.
  intros Hm Hh f. unfold try_catch_all. destruct (Hm f) as [He Hd].
  destruct (m f) as [[[]|e] f1]; simpl in *; [now split|].
  destruct (Hh f1) as [He1 Hd1]. split; congruence.
Qed.

(** A call other than [release()] adds no event and keeps the deleter. *)
Lemma silent_callback (nested : M Rs unit) c :
  releasing c = false -> silent (callback nested c).
Proof.
  induction c as [|i|i|i v|i v| | |c IH]; simpl; intros Hc;
    try discriminate;
    try (intros [[rs d [|]] evs]; split; reflexivity).
  apply silent_catch; [now apply IH | apply silent_ret].
Qed.

Lemma silent_script (nested : M Rs unit) script :
  existsb releasing script = false -> silent (run_script nested script).
Proof.
  induction script as [|c script IH]; simpl; intros H; [apply silent_ret|].
  apply orb_false_iff in H as [Hc Hs].
  apply silent_bind; [now apply silent_callback | now apply IH].
Qed.

(** A call that only reads the guard returns and changes nothing while the
    guard is not released, as it is while its deleter runs. *)
Lemma observing_callback (nested : M Rs unit) c f :
  observing c = true ->
  m_released (this f) = false ->
  callback nested c f = (Return tt, f).
Proof.
  destruct f as [[rs d r] evs]. simpl. intros Hc ->.
  induction c as [|i|i|i v|i v| | |c IH]; simpl in Hc |- *;
    try discriminate; try reflexivity.
  unfold try_catch_all. now rewrite (IH Hc).
Qed.

Lemma observing_script (nested : M Rs unit) script f :
  forallb observing script = true ->
  m_released (this f) = false ->
  run_script nested script f = (Return tt, f).
Proof.
  intros Hs Hf. induction script as [|c script IH]; simpl in Hs |- *;
    [reflexivity|].
  apply andb_true_iff in Hs as [Hc Hs]. unfold mbind, M_bind.
  rewrite (observing_callback nested c f Hc Hf). exact (IH Hs).
Qed.

Lemma cleanup_unfold f :
  m_released (this f) = false ->
  cleanup f =
  (try_catch_all std_apply_deleter
     (cerr_endl "Cleanup error - potential leak");;
   assign_resources (tuple_value_init Rs);;
   assign_released true) f.
Proof. exact (cleanup_reentrant_unfold [] f). Qed.

Lemma std_apply_reentrant_eq (nested : M Rs unit) script g evs :
  std_apply_reentrant nested script (mkFrame g evs) =
  (match fst (run_script nested script
                (mkFrame g (evs ++ [Invoke (m_deleter g) (m_resources g)]))) with
   | Return _ =>
       match m_deleter g (m_resources g) with
       | Return _ => Return tt
       | Throw e => Throw e
       end
   | Throw e => Throw e
   end,
   snd (run_script nested script
          (mkFrame g (evs ++ [Invoke (m_deleter g) (m_resources g)])))).
Proof.
  unfold std_apply_reentrant, mbind, M_bind, read, emit. simpl.
  destruct (run_script nested script
              (mkFrame g (evs ++ [Invoke (m_deleter g) (m_resources g)])))
    as [[[]|e] f1]; simpl; [|reflexivity].
  now destruct (m_deleter g (m_resources g)) as [[]|e].
Qed.

Lemma std_apply_deleter_eq g evs :
  std_apply_deleter (mkFrame g evs) =
  (match m_deleter g (m_resources g) with
   | Return _ => Return tt
   | Throw e => Throw e
   end,
   mkFrame g (evs ++ [Invoke (m_deleter g) (m_resources g)])).
Proof.
  unfold std_apply_deleter, mbind, M_bind, read, emit. simpl.
  now destruct (m_deleter g (m_resources g)) as [[]|e].
Qed.

Lemma std_apply_reentrant_observing (nested : M Rs unit) script f :
  forallb observing script = true ->
  m_released (this f) = false ->
  std_apply_reentrant nested script f = std_apply_deleter f.
Proof.
  intros Hs Hf. destruct f as [g evs].
  rewrite std_apply_reentrant_eq, std_apply_deleter_eq.
  now rewrite (observing_script nested script _ Hs) by exact Hf.
Qed.

(** A deleter that only reads its guard is a deleter that makes no call:
    [cleanup()] runs as in the plain definition. *)
Lemma cleanup_reentrant_observing scripts f :
  only_observes scripts = true -> cleanup_reentrant scripts f = cleanup f.
Proof.
  intros Hs. destruct (m_released (this f)) eqn:E.
  - rewrite (cleanup_reentrant_released scripts f E).
    symmetry. exact (cleanup_reentrant_released [] f E).
  - rewrite (cleanup_reentrant_unfold scripts f E), (cleanup_unfold f E).
    destruct scripts as [|script nested]; [reflexivity|].
    rewrite !cleanup_tail.
    now rewrite (std_apply_reentrant_observing _ script f Hs E).
Qed.

Lemma makes_no_call_observes scripts :
  makes_no_call scripts = true -> only_observes scripts = true.
Proof. destruct scripts as [|[|c script] nested]; simpl; congruence. Qed.

(** If the deleter does not call [release()] on its guard, the cleanup of a
    guard that is not released calls the deleter once, on the resources
    the guard held, and leaves the guard released and empty. *)
Lemma cleanup_reentrant_once scripts g evs :
  reenters scripts = false ->
  m_released g = false ->
  exists tail,
    cleanup_reentrant scripts (mkFrame g evs) =
    (Return tt,
     mkFrame (mkScopedLocalRef (tuple_value_init Rs) (m_deleter g) true)
       (evs ++ Invoke (m_deleter g) (m_resources g) :: tail)) /\
    calls tail = [].
Proof.
  intros Hs Hg. destruct g as [rs d r]. simpl in Hg. subst r.
  destruct scripts as [|script nested].
  - exists (match d rs with
            | Return _ => []
            | Throw _ => [Cerr "Cleanup error - potential leak"]
            end).
    split; [apply cleanup_not_released | now destruct (d rs)].
  - simpl in Hs. rewrite cleanup_reentrant_unfold by reflexivity.
    rewrite cleanup_tail, std_apply_reentrant_eq.
    cbn [m_deleter m_resources fst snd].
    destruct (silent_script (cleanup_reentrant nested) script Hs
                (mkFrame (mkScopedLocalRef rs d false) (evs ++ [Invoke d rs])))
      as [He Hd].
    cbn [events this m_deleter] in He, Hd. rewrite He, Hd, <- app_assoc.
    eexists. split; [reflexivity|].
    destruct (fst (run_script (cleanup_reentrant nested) script
                     (mkFrame (mkScopedLocalRef rs d false)
                        (evs ++ [Invoke d rs])))) as [[]|e];
      [destruct (d rs) as [[]|e]|]; reflexivity.
Qed.

Lemma tame_cleanup_reentrant scripts :
  reenters scripts = false -> tame (cleanup_reentrant scripts).
Proof.
  intros Hs g. cbn zeta. split; intros Hg.
  - rewrite (cleanup_reentrant_released scripts (mkFrame g []) Hg). now split.
  - right. destruct (cleanup_reentrant_once scripts g [] Hs Hg) as (tail & -> & Ht).
    cbn [snd events this app m_released calls]. rewrite Ht. now split.
Qed.

(** *** Programs *)

Lemma move_assign_from_reentrant_eq scripts (other g : ScopedLocalRef Rs) evs :
  move_assign_from_reentrant scripts other (mkFrame g evs) =
  (Return (mkScopedLocalRef
             (tuple_moved_from (m_resources other)) (m_deleter other) true),
   mkFrame (mkScopedLocalRef
              (m_resources other) (m_deleter other) (m_released other))
           (events (snd (cleanup_reentrant scripts (mkFrame g evs))))).
Proof.
  unfold move_assign_from_reentrant, mbind, M_bind.
  destruct (cleanup_reentrant_returns scripts (mkFrame g evs)) as [Hr _].
  destruct (cleanup_reentrant scripts (mkFrame g evs)) as [r f1].
  simpl in Hr. subst r. reflexivity.
Qed.

Lemma move_assignment_reentrant_step scripts σ dst src gd gs :
  object σ dst = Some gd ->
  object σ src = Some gs ->
  dst <> src ->
  move_assignment_reentrant scripts dst src σ =
  Some (mkMachine
          (<[src := Some (mkScopedLocalRef
                            (tuple_moved_from (m_resources gs)) (m_deleter gs) true)]>
             (<[dst := Some gs]> (heap σ)))
          (trace σ ++
           map (pair dst)
             (events (snd (cleanup_reentrant scripts (mkFrame gd [])))))).
Proof.
  intros Hd Hs Hne. unfold move_assignment_reentrant. rewrite Hd, Hs.
  cbn [mbind option_bind].
  destruct (decide (dst ≠ src)) as [_|Hc]; [|contradiction].
  rewrite (call_eq _ _ _ _ Hd), move_assign_from_reentrant_eq.
  cbn [mbind option_bind fst snd heap trace this events]. now destruct gs.
Qed.

Lemma move_assignment_reentrant_self scripts σ dst g :
  object σ dst = Some g -> move_assignment_reentrant scripts dst dst σ = Some σ.
Proof.
  intros Hd. unfold move_assignment_reentrant. rewrite Hd.
  cbn [mbind option_bind].
  destruct (decide (dst ≠ dst)) as [Hc|_]; [contradiction|reflexivity].
Qed.

Lemma move_assignment_reentrant_live scripts σ σ' dst src :
  move_assignment_reentrant scripts dst src σ = Some σ' ->
  exists gd gs, object σ dst = Some gd /\ object σ src = Some gs.
Proof.
  unfold move_assignment_reentrant. intros H.
  destruct (object σ dst) as [gd|]; [|discriminate].
  destruct (object σ src) as [gs|]; [|discriminate]. now exists gd, gs.
Qed.

Lemma destroy_reentrant_step scripts σ a g :
  object σ a = Some g ->
  destroy_reentrant scripts a σ =
  Some (mkMachine (<[a := None]> (heap σ))
          (trace σ ++
           map (pair a)
             (events (snd (cleanup_reentrant scripts (mkFrame g [])))))).
Proof.
  intros Hg. unfold destroy_reentrant. rewrite (call_eq _ _ _ _ Hg).
  cbn [mbind option_bind fst snd heap trace].
  now rewrite list_insert_insert_eq.
Qed.

Lemma destroy_reentrant_live scripts σ σ' a :
  destroy_reentrant scripts a σ = Some σ' -> exists g, object σ a = Some g.
Proof.
  unfold destroy_reentrant, call. intros H.
  destruct (object σ a) as [g|]; [now exists g | discriminate].
Qed.

(** A plain cleanup gives a plain step. *)
Lemma step_reentrant_plain scripts (op : Op Rs) σ :
  (forall f, cleanup_reentrant scripts f = cleanup f) ->
  step_reentrant scripts op σ = step op σ.
Proof.
  intros H. destruct op as [d args|other|dst other|b i|b i|b i v|b i v|b|b|b|b];
    try reflexivity; cbn [step_reentrant step].
  - destruct (object σ dst) as [gd|] eqn:Hd;
      [|unfold move_assignment_reentrant, move_assignment; now rewrite Hd].
    destruct (object σ other) as [o|] eqn:Ho;
      [|unfold move_assignment_reentrant, move_assignment; now rewrite Hd, Ho].
    destruct (decide (dst = other)) as [->|Hne].
    + rewrite (move_assignment_reentrant_self scripts σ other gd Hd).
      unfold move_assignment. rewrite Hd. cbn [mbind option_bind].
      destruct (decide (other ≠ other)) as [Hc|_]; [contradiction|reflexivity].
    + rewrite (move_assignment_reentrant_step scripts σ dst other gd o Hd Ho Hne).
      rewrite (move_assignment_step σ dst other gd o Hd Ho Hne).
      rewrite H. change (cleanup (mkFrame gd [])) with (release (mkFrame gd [])).
      now rewrite release_events.
  - unfold call, release_reentrant, release. destruct (object σ b) as [g|];
      [|reflexivity].
    cbn [mbind option_bind]. now rewrite H.
  - unfold destroy_reentrant, destroy, call, destructor_reentrant, destructor.
    destruct (object σ b) as [g|]; [|reflexivity].
    cbn [mbind option_bind]. now rewrite H.
Qed.

Lemma run_reentrant_plain (prog : list (list (Script Rs) * Op Rs)) σ :
  forallb (fun p => makes_no_call (fst p)) prog = true ->
  run_reentrant prog σ = run (map snd prog) σ.
Proof.
  revert σ. induction prog as [|[scripts op] prog IH]; intros σ H; simpl in *;
    [reflexivity|].
  apply andb_true_iff in H as [Hs Hp].
  rewrite (step_reentrant_plain scripts op σ)
    by (intros f; apply cleanup_reentrant_observing;
        now apply makes_no_call_observes).
  destruct (step op σ) as [σ1|]; simpl; [now apply IH | reflexivity].
Qed.

(** What a step appends to the trace comes from the objects whose cleanup
    it runs. *)
Lemma step_reentrant_invocations scripts (op : Op Rs) σ σ' a :
  cleans a op = false ->
  step_reentrant scripts op σ = Some σ' ->
  invocations a (trace σ') = invocations a (trace σ).
Proof.
  intros Hop Hstep.
  destruct op as [d args|other|dst other|b i|b i|b i v|b i v|b|b|b|b];
    cbn [step_reentrant cleans] in Hstep, Hop;
    try (destruct (step_trace _ σ σ' Hstep) as [->|(b' & g' & Hc & _)];
         [reflexivity | discriminate Hc]);
    apply Nat.eqb_neq in Hop.
  - destruct (move_assignment_reentrant_live _ _ _ _ _ Hstep)
      as (gd & o & Hd & Ho).
    destruct (decide (dst = other)) as [->|Hne].
    + rewrite (move_assignment_reentrant_self scripts σ other gd Hd) in Hstep.
      now injection Hstep as <-.
    + rewrite (move_assignment_reentrant_step scripts σ dst other gd o Hd Ho Hne)
        in Hstep.
      injection Hstep as <-. cbn [trace].
      rewrite invocations_app, invocations_other; [lia | congruence].
  - apply call_inv in Hstep as (g & _ & ->). cbn [trace].
    rewrite invocations_app, invocations_other; [lia | congruence].
  - destruct (destroy_reentrant_live _ _ _ _ Hstep) as (g & Hg).
    rewrite (destroy_reentrant_step scripts σ b g Hg) in Hstep.
    injection Hstep as <-. cbn [trace].
    rewrite invocations_app, invocations_other; [lia | congruence].
Qed.

Lemma keeps_cleans (op : Op Rs) a : keeps a op = true -> cleans a op = false.
Proof.
  destruct op; simpl; try reflexivity; intros H.
  - apply andb_true_iff in H as [H _]. now apply negb_true_iff.
  - now apply negb_true_iff.
  - now apply negb_true_iff.
Qed.

Lemma step_reentrant_keeps_object scripts (op : Op Rs) σ σ' a g :
  keeps a op = true ->
  step_reentrant scripts op σ = Some σ' ->
  object σ a = Some g ->
  object σ' a = Some g.
Proof.
  intros Hop Hstep Hg.
  assert (Hσ : forall tr, object (mkMachine (heap σ) tr) a = object σ a)
    by (intros tr; now destruct σ).
  assert (Hneq : forall b, negb (Nat.eqb b a) = true -> a <> b).
  { intros b Hb. apply negb_true_iff in Hb. apply Nat.eqb_neq in Hb. congruence. }
  destruct op as [d args|other|dst other|b i|b i|b i v|b i v|b|b|b|b];
    try exact (step_keeps_object _ σ σ' a g Hop Hstep Hg);
    cbn [step_reentrant keeps] in Hstep, Hop.
  - apply andb_true_iff in Hop as [Hdst Hother].
    apply Hneq in Hdst. apply Hneq in Hother.
    destruct (move_assignment_reentrant_live _ _ _ _ _ Hstep)
      as (gd & o & Hd & Ho).
    destruct (decide (dst = other)) as [->|Hne].
    + rewrite (move_assignment_reentrant_self scripts σ other gd Hd) in Hstep.
      now injection Hstep as <-.
    + rewrite (move_assignment_reentrant_step scripts σ dst other gd o Hd Ho Hne)
        in Hstep.
      injection Hstep as <-.
      rewrite (object_insert_ne _ _ (trace σ)) by exact Hother.
      rewrite (object_insert_ne _ _ (trace σ)) by exact Hdst.
      now rewrite Hσ.
  - apply Hneq in Hop. apply call_inv in Hstep as (gb & _ & ->).
    rewrite (object_insert_ne _ _ (trace σ)) by exact Hop. now rewrite Hσ.
  - apply Hneq in Hop. destruct (destroy_reentrant_live _ _ _ _ Hstep) as (gb & Hb).
    rewrite (destroy_reentrant_step scripts σ b gb Hb) in Hstep.
    injection Hstep as <-.
    rewrite (object_insert_ne _ _ (trace σ)) by exact Hop. now rewrite Hσ.
Qed.

Lemma run_reentrant_keeps (prog : list (list (Script Rs) * Op Rs)) σ σ' a g :
  forallb (fun p => keeps a (snd p)) prog = true ->
  run_reentrant prog σ = Some σ' ->
  object σ a = Some g ->
  object σ' a = Some g /\
  invocations a (trace σ') = invocations a (trace σ).
Proof.
  revert σ. induction prog as [|[scripts op] prog IH]; intros σ Hp Hrun Hg;
    simpl in Hp, Hrun.
  - injection Hrun as <-. now split.
  - apply andb_true_iff in Hp as [Hop Hp].
    destruct (step_reentrant scripts op σ) as [σ1|] eqn:E; [|discriminate].
    simpl in Hrun.
    pose proof (step_reentrant_keeps_object scripts op σ σ1 a g Hop E Hg) as Hg1.
    pose proof (step_reentrant_invocations scripts op σ σ1 a
                  (keeps_cleans op a Hop) E) as Hi1.
    destruct (IH σ1 Hp Hrun Hg1) as [Hg' Hi']. split; [exact Hg'|]. congruence.
Qed.

(** C1, amended.  A guard is constructed with a deleter [C] and resources
    [rs]; the program goes on with any operations, on this guard and on
    others, but never calls [release], [steal], [set] or [try_set] on it
    and never moves from it or move-assigns into it, and the deleter, while
    it runs, only reads the guard.  Then the guard makes no deleter call
    before it is destroyed, and destroying it calls [C] exactly once, with
    [rs] in the declared order. *)
Theorem constructed_guard_cleaned_once σ0 (C : Deleter Rs) rs
    (prog : list (list (Script Rs) * Op Rs)) σ scripts :
  let a := length (heap σ0) in
  run_reentrant prog (new_object (construct C rs) σ0) = Some σ ->
  forallb (fun p => keeps a (snd p)) prog = true ->
  only_observes scripts = true ->
  exists σ' evs,
    destroy_reentrant scripts a σ = Some σ' /\
    trace σ' = trace σ ++ map (pair a) evs /\
    calls evs = [(C, rs)] /\
    invocations a (trace σ) = invocations a (trace σ0) /\
    invocations a (trace σ') = S (invocations a (trace σ0)) /\
    object σ' a = None.
Proof.
  intros a Hrun Hkeeps Hobs.
  assert (Hnew : object (new_object (construct C rs) σ0) a = Some (construct C rs))
    by apply object_app_new.
  destruct (run_reentrant_keeps prog _ σ a _ Hkeeps Hrun Hnew) as [Hg Hinv].
  cbn [new_object trace] in Hinv.
  exists (mkMachine (<[a := None]> (heap σ))
            (trace σ ++ map (pair a) (cleanup_events C rs))),
    (cleanup_events C rs).
  split; [|split; [|split; [|split; [|split]]]].
  - rewrite (destroy_reentrant_step scripts σ a _ Hg).
    rewrite (cleanup_reentrant_observing scripts _ Hobs).
    unfold construct. now rewrite cleanup_not_released.
  - reflexivity.
  - apply calls_cleanup_events.
  - exact Hinv.
  - cbn [trace]. rewrite invocations_app, invocations_own, calls_cleanup_events.
    simpl. lia.
  - apply object_insert_eq. exact (object_lt _ _ _ Hg).
Qed.

Lemma call_other_at_most_once {A : Type} (m : M Rs A) σ σ' a b (r : result A) :
  a <> b ->
  call b m σ = Some (r, σ') ->
  at_most_once σ a ->
  at_most_once σ' a.
Proof.
  intros Hab Hcall Hinv. unfold call in Hcall.
  destruct (object σ b) as [g|] eqn:Hg; [|discriminate]. simpl in Hcall.
  injection Hcall as _ <-.
  set (f := snd (m (mkFrame g []))).
  refine (at_most_once_heap
            (mkMachine (heap σ) (trace σ ++ map (pair b) (events f)))
            (<[b := Some (this f)]> (heap σ)) a _ _ _).
  - now apply at_most_once_quiet.
  - cbn [heap]. now rewrite length_insert.
  - intros _ g' Hg'. right.
    now rewrite (object_insert_ne _ _ (trace σ ++ map (pair b) (events f))) in Hg'.
Qed.

Lemma step_reentrant_at_most_once scripts (op : Op Rs) σ σ' a :
  assigns_into a op = false ->
  cleans a op && reenters scripts = false ->
  step_reentrant scripts op σ = Some σ' ->
  at_most_once σ a ->
  at_most_once σ' a.
Proof.
  intros Hop Hre Hstep Hinv.
  assert (Hcall : forall b σ1 (r : result unit),
             Nat.eqb b a && reenters scripts = false ->
             call b (cleanup_reentrant scripts) σ = Some (r, σ1) ->
             at_most_once σ1 a).
  { intros b σ1 r Hb Hc. destruct (decide (a = b)) as [->|Hab].
    - rewrite Nat.eqb_refl in Hb. simpl in Hb.
      exact (call_at_most_once _ σ σ1 b b r
               (tame_cleanup_reentrant scripts Hb) Hc Hinv).
    - exact (call_other_at_most_once _ σ σ1 a b r Hab Hc Hinv). }
  destruct op as [d args|other|dst other|b i|b i|b i v|b i v|b|b|b|b];
    try exact (step_at_most_once _ σ σ' a Hop Hstep Hinv);
    cbn [step_reentrant cleans assigns_into] in Hstep, Hop, Hre.
  - apply Nat.eqb_neq in Hop.
    destruct (move_assignment_reentrant_live _ _ _ _ _ Hstep)
      as (gd & o & Hd & Ho).
    destruct (decide (dst = other)) as [->|Hne].
    + rewrite (move_assignment_reentrant_self scripts σ other gd Hd) in Hstep.
      now injection Hstep as <-.
    + rewrite (move_assignment_reentrant_step scripts σ dst other gd o Hd Ho Hne)
        in Hstep.
      injection Hstep as <-.
      set (evs := events (snd (cleanup_reentrant scripts (mkFrame gd [])))).
      refine (store_released_at_most_once
                (mkMachine (<[dst := Some o]> (heap σ))
                   (trace σ ++ map (pair dst) evs))
                a other _ _ _); [|now intros g' [= <-]].
      refine (at_most_once_heap
                (mkMachine (heap σ) (trace σ ++ map (pair dst) evs))
                (<[dst := Some o]> (heap σ)) a _ _ _).
      * apply at_most_once_quiet; [exact Hinv | congruence].
      * cbn [heap]. now rewrite length_insert.
      * intros _ g' Hg'. right.
        rewrite (object_insert_ne _ _ (trace σ ++ map (pair dst) evs))
          in Hg' by congruence.
        exact Hg'.
  - destruct (call b (release_reentrant scripts) σ) as [[r σ1]|] eqn:E;
      [|discriminate].
    injection Hstep as <-. exact (Hcall b σ1 r Hre E).
  - unfold destroy_reentrant in Hstep.
    destruct (call b (destructor_reentrant scripts) σ) as [[r σ1]|] eqn:E;
      [|discriminate].
    injection Hstep as <-. cbn [snd].
    apply store_released_at_most_once; [|discriminate].
    exact (Hcall b σ1 r Hre E).
Qed.

Lemma run_reentrant_at_most_once
    (prog : list (list (Script Rs) * Op Rs)) σ σ' a :
  forallb (fun p => negb (assigns_into a (snd p))) prog = true ->
  forallb (fun p => negb (cleans a (snd p) && reenters (fst p))) prog = true ->
  run_reentrant prog σ = Some σ' ->
  at_most_once σ a ->
  at_most_once σ' a.
Proof.
  revert σ. induction prog as [|[scripts op] prog IH];
    intros σ Hassign Hre Hrun Hinv; simpl in *.
  - now injection Hrun as <-.
  - apply andb_true_iff in Hassign as [Ha Hassign].
    apply andb_true_iff in Hre as [Hr Hre].
    apply negb_true_iff in Ha. apply negb_true_iff in Hr.
    destruct (step_reentrant scripts op σ) as [σ1|] eqn:E; [|discriminate].
    simpl in Hrun. apply (IH σ1 Hassign Hre Hrun).
    exact (step_reentrant_at_most_once scripts op σ σ1 a Ha Hr E Hinv).
Qed.

(** C2, amended.  Over any sequence of operations of a program that starts
    with no objects (construction, [release], move construction, moves out
    of the guard, [get], [set], [steal], destruction), if nothing is
    move-assigned into the guard at [a] and its deleter does not call
    [release()] on it while it runs, that guard calls its deleter at most
    once; whatever the deleter does, a [release] after a [release] does
    nothing. *)
Theorem cleanup_at_most_once_unless_reentered
    (prog : list (list (Script Rs) * Op Rs)) σ a :
  run_reentrant prog (initial Rs) = Some σ ->
  forallb (fun p => negb (assigns_into a (snd p))) prog = true ->
  forallb (fun p => negb (cleans a (snd p) && reenters (fst p))) prog = true ->
  invocations a (trace σ) <= 1 /\
  (forall (first second : list (Script Rs)) f,
      release_reentrant second (snd (release_reentrant first f)) =
      (Return tt, snd (release_reentrant first f))).
Proof.
  intros Hrun Hassign Hre. split.
  - assert (H : at_most_once σ a).
    { apply (run_reentrant_at_most_once prog (initial Rs) σ a Hassign Hre Hrun).
      now left. }
    destruct H as [->|[-> _]]; lia.
  - intros first second f. unfold release_reentrant.
    apply cleanup_reentrant_released.
    apply (cleanup_reentrant_returns first f).
Qed.

(** X10.  In a program whose deleters make no call on a guard while they
    run, the deleter calls made so far plus the live guards that are not
    released never exceed the number of guards constructed, however the
    guards are moved, and are equal to that number if the program never
    calls [steal]; once no live guard is left unreleased, there have then
    been as many deleter calls as constructions. *)
Theorem cleanups_match_constructions_without_callbacks
    (prog : list (list (Script Rs) * Op Rs)) σ :
  run_reentrant prog (initial Rs) = Some σ ->
  forallb (fun p => makes_no_call (fst p)) prog = true ->
  total_invocations (trace σ) + pending (heap σ) <= constructions (map snd prog) /\
  (forallb (fun op => negb (is_steal op)) (map snd prog) = true ->
   total_invocations (trace σ) + pending (heap σ) = constructions (map snd prog) /\
   (pending (heap σ) = 0 ->
    total_invocations (trace σ) = constructions (map snd prog))).
Proof.
  intros Hrun Hplain. rewrite (run_reentrant_plain prog _ Hplain) in Hrun.
  exact (cleanups_match_constructions (map snd prog) σ Hrun).
Qed.

(** X11.  Move construction hands the cleanup over unchanged, when the
    deleter makes no call on a guard while it runs.  After
    [ScopedLocalRef n(std::move(a))], destroying both guards, in either
    order, adds to the trace exactly the cleanup the source owed before the
    move (one deleter call on its resources, or nothing if it was already
    released), and it is the new guard that performs it. *)
Theorem move_construct_carries_cleanup_without_callbacks σ a g
    (first second : list (Script Rs)) :
  object σ a = Some g ->
  makes_no_call first = true ->
  makes_no_call second = true ->
  let n := length (heap σ) in
  (exists σ',
      run_reentrant
        [([], OpMoveConstruct a); (first, OpDestroy a); (second, OpDestroy n)] σ
      = Some σ' /\
      trace σ' = trace σ ++ map (pair n) (cleanup_of g) /\
      object σ' a = None /\ object σ' n = None) /\
  (exists σ',
      run_reentrant
        [([], OpMoveConstruct a); (first, OpDestroy n); (second, OpDestroy a)] σ
      = Some σ' /\
      trace σ' = trace σ ++ map (pair n) (cleanup_of g) /\
      object σ' a = None /\ object σ' n = None).
Proof.
  intros Hg H1 H2 n.
  destruct (move_construct_carries_cleanup σ a g Hg) as [Ha Hb].
  split.
  - rewrite run_reentrant_plain by (simpl; now rewrite H1, H2). exact Ha.
  - rewrite run_reentrant_plain by (simpl; now rewrite H1, H2). exact Hb.
Qed.

(** X12.  Move assignment between two different live guards loses no
    cleanup and repeats none, when the deleters make no call on a guard
    while they run.  After [dst = std::move(src)], destroying both guards,
    in either order, leaves in the trace exactly the cleanup [dst] owed
    before the assignment followed by the cleanup [src] owed, both
    performed by [dst]. *)
Theorem move_assignment_carries_cleanup_without_callbacks σ dst src gd gs
    (assign first second : list (Script Rs)) :
  object σ dst = Some gd ->
  object σ src = Some gs ->
  dst <> src ->
  makes_no_call assign = true ->
  makes_no_call first = true ->
  makes_no_call second = true ->
  (exists σ',
      run_reentrant
        [(assign, OpMoveAssign dst src); (first, OpDestroy dst);
         (second, OpDestroy src)] σ
      = Some σ' /\
      trace σ' = trace σ ++ map (pair dst) (cleanup_of gd ++ cleanup_of gs) /\
      object σ' dst = None /\ object σ' src = None) /\
  (exists σ',
      run_reentrant
        [(assign, OpMoveAssign dst src); (first, OpDestroy src);
         (second, OpDestroy dst)] σ
      = Some σ' /\
      trace σ' = trace σ ++ map (pair dst) (cleanup_of gd ++ cleanup_of gs) /\
      object σ' dst = None /\ object σ' src = None).
Proof.
  intros Hd Hs Hne H0 H1 H2.
  destruct (move_assignment_carries_cleanup σ dst src gd gs Hd Hs Hne) as [Ha Hb].
  split.
  - rewrite run_reentrant_plain by (simpl; now rewrite H0, H1, H2). exact Ha.
  - rewrite run_reentrant_plain by (simpl; now rewrite H0, H1, H2). exact Hb.
Qed.

End Reentrant.

(** C1, as stated, fails: a guard constructed with the descriptor 5, on
    which [release] and [steal] are never called and which is never moved
    from, calls its deleter with 7 when it is destroyed after [set(7)]; and
    when a released guard has been move-assigned into it, it has cleaned up
    in the assignment and its destruction calls nothing. *)
Lemma destroy_depends_on_set_and_assignment :
  (let ops : list (Op [TInt]) :=
     [OpConstruct close_fn (5%Z, tt); @OpSet [TInt] 0 0 7%Z; OpDestroy 0] in
   exists σ,
     run ops (initial [TInt]) = Some σ /\
     trace σ = [(0, Invoke close_fn (7%Z, tt))] /\
     trace σ <> [(0, Invoke close_fn (5%Z, tt))]) /\
  (let ops : list (Op [TInt]) :=
     [OpConstruct close_fn (5%Z, tt); OpConstruct close_fn (6%Z, tt);
      OpRelease 1; OpMoveAssign 0 1] in
   exists σ σ',
     run ops (initial [TInt]) = Some σ /\
     destroy 0 σ = Some σ' /\
     trace σ' = trace σ).
Proof.
  split.
  - eexists. split; [reflexivity|]. split; [reflexivity|].
    cbn [trace]. intros [=].
  - eexists. eexists. split; [reflexivity|]. split; reflexivity.
Qed.

(** C2, as stated, fails in two ways.  A guard that is assigned into cleans
    up what it held and later cleans up what it received.  And [cleanup()]
    sets [m_released] only after the deleter has returned, so a deleter
    that calls [release()] on its guard is called again by that
    [release()], on the same resources. *)
Lemma cleanup_invoked_twice :
  (let ops : list (Op [TInt]) :=
     [OpConstruct close_fn (1%Z, tt);
      OpConstruct close_fn (2%Z, tt);
      OpMoveAssign 0 1;
      OpDestroy 0] in
   exists σ,
     run ops (initial [TInt]) = Some σ /\
     trace σ = [(0, Invoke close_fn (1%Z, tt)); (0, Invoke close_fn (2%Z, tt))] /\
     invocations 0 (trace σ) = 2) /\
  (let prog : list (list (Script [TInt]) * Op [TInt]) :=
     [([], OpConstruct close_fn (5%Z, tt));
      ([[CallRelease]], OpRelease 0);
      ([], OpDestroy 0)] in
   exists σ,
     run_reentrant prog (initial [TInt]) = Some σ /\
     trace σ = [(0, Invoke close_fn (5%Z, tt)); (0, Invoke close_fn (5%Z, tt))] /\
     invocations 0 (trace σ) = 2) /\
  ~ 2 <= 1.
Proof.
  split; [|split; [|lia]].
  - eexists. split; [reflexivity|]. split; reflexivity.
  - eexists. split; [reflexivity|]. split; reflexivity.
Qed.

Lemma constructed_guard_cleaned_once_witness :
  let σ0 : Machine [TInt] := new_object (construct close_fn (1%Z, tt)) (initial [TInt]) in
  let C := failing_deleter [TInt] in
  let prog : list (list (Script [TInt]) * Op [TInt]) :=
    [([], OpGet 1 0);
     ([[CallRelease]], OpRelease 0);
     ([], OpBool 1);
     ([], OpMoveConstruct 0);
     ([], OpTryGet 1 0)] in
  let scripts : list (Script [TInt]) := [[CallGet 0; Caught CallBool; CallTryGet 0]] in
  exists σ,
    run_reentrant prog (new_object (construct C (5%Z, tt)) σ0) = Some σ /\
    forallb (fun p => keeps 1 (snd p)) prog = true /\
    only_observes scripts = true /\
    exists σ' evs,
      destroy_reentrant scripts 1 σ = Some σ' /\
      trace σ' = trace σ ++ map (pair 1) evs /\
      calls evs = [(C, (5%Z, tt))] /\
      invocations 1 (trace σ) = invocations 1 (trace σ0) /\
      invocations 1 (trace σ') = S (invocations 1 (trace σ0)) /\
      object σ' 1 = None.
Proof.
  eexists. split; [reflexivity|]. split; [reflexivity|]. split; [reflexivity|].
  apply (@constructed_guard_cleaned_once [TInt]
           (new_object (construct close_fn (1%Z, tt)) (initial [TInt]))
           (failing_deleter [TInt]) (5%Z, tt)
           [([], OpGet 1 0);
            ([[CallRelease]], OpRelease 0);
            ([], OpBool 1);
            ([], OpMoveConstruct 0);
            ([], OpTryGet 1 0)]);
    reflexivity.
Defined.

Lemma cleanup_at_most_once_unless_reentered_witness :
  let prog : list (list (Script [TInt]) * Op [TInt]) :=
    [([], OpConstruct close_fn (5%Z, tt));
     ([], OpConstruct close_fn (6%Z, tt));
     ([[CallRelease]], OpRelease 1);
     ([[@CallSet [TInt] 0 7%Z; CallSteal; Caught (CallGet 0); CallGet 0]],
      OpRelease 0);
     ([], OpRelease 0);
     ([], OpMoveAssign 1 0);
     ([], OpDestroy 0)] in
  exists σ,
    run_reentrant prog (initial [TInt]) = Some σ /\
    forallb (fun p => negb (assigns_into 0 (snd p))) prog = true /\
    forallb (fun p => negb (cleans 0 (snd p) && reenters (fst p))) prog = true /\
    invocations 0 (trace σ) = 1 /\
    invocations 0 (trace σ) <= 1 /\
    (forall (first second : list (Script [TInt])) f,
        release_reentrant second (snd (release_reentrant first f)) =
        (Return tt, snd (release_reentrant first f))).
Proof.
  eexists. split; [reflexivity|]. split; [reflexivity|]. split; [reflexivity|].
  split; [reflexivity|].
  apply (@cleanup_at_most_once_unless_reentered [TInt]
           [([], OpConstruct close_fn (5%Z, tt));
            ([], OpConstruct close_fn (6%Z, tt));
            ([[CallRelease]], OpRelease 1);
            ([[@CallSet [TInt] 0 7%Z; CallSteal; Caught (CallGet 0); CallGet 0]],
             OpRelease 0);
            ([], OpRelease 0);
            ([], OpMoveAssign 1 0);
            ([], OpDestroy 0)]);
    reflexivity.
Defined.

Lemma cleanups_match_constructions_without_callbacks_witness :
  let prog : list (list (Script [TInt]) * Op [TInt]) :=
    [([], OpConstruct close_fn (1%Z, tt)); ([], OpConstruct close_fn (2%Z, tt));
     ([[]], OpMoveAssign 0 1); ([], OpMoveConstruct 0);
     ([[]], OpDestroy 0); ([], OpDestroy 1); ([[]; []], OpDestroy 2)] in
  let σ : Machine [TInt] :=
    mkMachine [None; None; None]
      [(0, Invoke close_fn (1%Z, tt)); (2, Invoke close_fn (2%Z, tt))] in
  run_reentrant prog (initial [TInt]) = Some σ /\
  forallb (fun p => makes_no_call (fst p)) prog = true /\
  forallb (fun op => negb (is_steal op)) (map snd prog) = true /\
  pending (heap σ) = 0 /\
  total_invocations (trace σ) + pending (heap σ) <= constructions (map snd prog) /\
  total_invocations (trace σ) + pending (heap σ) = constructions (map snd prog) /\
  total_invocations (trace σ) = constructions (map snd prog).
Proof.
  split; [reflexivity|]. split; [reflexivity|]. split; [reflexivity|].
  split; [reflexivity|].
  destruct (@cleanups_match_constructions_without_callbacks [TInt]
              [([], OpConstruct close_fn (1%Z, tt));
               ([], OpConstruct close_fn (2%Z, tt));
               ([[]], OpMoveAssign 0 1); ([], OpMoveConstruct 0);
               ([[]], OpDestroy 0); ([], OpDestroy 1); ([[]; []], OpDestroy 2)]
              (mkMachine [None; None; None]
                 [(0, Invoke close_fn (1%Z, tt)); (2, Invoke close_fn (2%Z, tt))])
              eq_refl eq_refl) as [Hle Heq].
  split; [exact Hle|].
  destruct (Heq eq_refl) as [Hsum Hall]. split; [exact Hsum|].
  apply Hall. reflexivity.
Defined.

Lemma move_construct_carries_cleanup_without_callbacks_witness :
  let σ : Machine [TInt] := new_object fd5 (initial [TInt]) in
  let first : list (Script [TInt]) := [[]] in
  let second : list (Script [TInt]) := [] in
  object σ 0 = Some fd5 /\
  makes_no_call first = true /\
  makes_no_call second = true /\
  (exists σ',
      run_reentrant
        [([], OpMoveConstruct 0); (first, OpDestroy 0); (second, OpDestroy 1)] σ
      = Some σ' /\
      trace σ' = trace σ ++ map (pair 1) (cleanup_of fd5) /\
      object σ' 0 = None /\ object σ' 1 = None) /\
  (exists σ',
      run_reentrant
        [([], OpMoveConstruct 0); (first, OpDestroy 1); (second, OpDestroy 0)] σ
      = Some σ' /\
      trace σ' = trace σ ++ map (pair 1) (cleanup_of fd5) /\
      object σ' 0 = None /\ object σ' 1 = None).
Proof.
  split; [reflexivity|]. split; [reflexivity|]. split; [reflexivity|].
  apply (@move_construct_carries_cleanup_without_callbacks [TInt]
           (new_object fd5 (initial [TInt])) 0 fd5 [[]] []);
    reflexivity.
Defined.

Lemma move_assignment_carries_cleanup_without_callbacks_witness :
  let gd : ScopedLocalRef [TInt] := construct close_fn (1%Z, tt) in
  let gs : ScopedLocalRef [TInt] := construct (failing_deleter [TInt]) (2%Z, tt) in
  let σ := new_object gs (new_object gd (initial [TInt])) in
  let quiet : list (Script [TInt]) := [[]] in
  object σ 0 = Some gd /\
  object σ 1 = Some gs /\
  0 <> 1 /\
  makes_no_call quiet = true /\
  (exists σ',
      run_reentrant
        [(quiet, OpMoveAssign 0 1); (quiet, OpDestroy 0); (quiet, OpDestroy 1)] σ
      = Some σ' /\
      trace σ' = trace σ ++ map (pair 0) (cleanup_of gd ++ cleanup_of gs) /\
      object σ' 0 = None /\ object σ' 1 = None) /\
  (exists σ',
      run_reentrant
        [(quiet, OpMoveAssign 0 1); (quiet, OpDestroy 1); (quiet, OpDestroy 0)] σ
      = Some σ' /\
      trace σ' = trace σ ++ map (pair 0) (cleanup_of gd ++ cleanup_of gs) /\
      object σ' 0 = None /\ object σ' 1 = None).
Proof.
  split; [reflexivity|]. split; [reflexivity|]. split; [lia|].
  split; [reflexivity|].
  apply (@move_assignment_carries_cleanup_without_callbacks [TInt]
           (new_object (construct (failing_deleter [TInt]) (2%Z, tt))
              (new_object (construct close_fn (1%Z, tt)) (initial [TInt])))
           0 1
           (construct close_fn (1%Z, tt))
           (construct (failing_deleter [TInt]) (2%Z, tt))
           [[]] [[]] [[]]);
    [reflexivity | reflexivity | lia | reflexivity | reflexivity | reflexivity].
Defined.

End scopedlocalref.
